(** * wav_player: a shallow embedding of [wav_player.c] and its properties

    The C translation unit is embedded function by function.  Machine
    integers are [Z] with their wrap-around written out, [uint8_t]
    buffers are lists of [Byte.byte], the [float] arithmetic of
    [apply_volume] is IEEE-754 binary32 as specified by [SpecFloat], and
    the effects of the code (the global [current_volume], the stream, the
    sink callback and the log) are threaded through a small state monad
    that records every external call in a trace. *)

From Stdlib Require Import ZArith Lia List String Bool.
From Stdlib Require Import Strings.Byte.
From Stdlib Require Import Floats.SpecFloat.
From stdpp Require Import base list.

Import ListNotations.
Local Open Scope Z_scope.

(** ** Machine integers *)

Module CInt.

(** Reduction of a mathematical integer to an unsigned [w]-bit value. *)
Definition to_unsigned (w : Z) (z : Z) : Z := z mod 2 ^ w.

(** Reduction to a signed two's-complement [w]-bit value. *)
Definition to_signed (w : Z) (z : Z) : Z :=
  let u := z mod 2 ^ w in
  if u <? 2 ^ (w - 1) then u else u - 2 ^ w.

Definition to_uint16 : Z -> Z := to_unsigned 16.
Definition to_uint32 : Z -> Z := to_unsigned 32.
Definition to_int16 : Z -> Z := to_signed 16.
Definition to_int32 : Z -> Z := to_signed 32.

Definition INT_MIN : Z := - 2 ^ 31.
Definition INT_MAX : Z := 2 ^ 31 - 1.

(** [int] addition and subtraction, wrapping as the target does. *)
Definition int_add (a b : Z) : Z := to_int32 (a + b).
Definition int_sub (a b : Z) : Z := to_int32 (a - b).

End CInt.

Import CInt.

(** ** Bytes *)

(** The value of a [uint8_t]. *)
Definition u8 (b : byte) : Z := Z.of_N (Byte.to_N b).

(** Storing an integer into a [uint8_t] keeps its low eight bits. *)
Definition byte_of_Z (z : Z) : byte :=
  match Byte.of_N (Z.to_N (z mod 256)) with
  | Some b => b
  | None => x00
  end.

(** ** Single-precision arithmetic

    [float] is IEEE-754 binary32: 24 bits of precision, infinities at
    exponent 128.  Conversions and operations round to nearest even. *)

Module Float32.

Definition prec : Z := 24.
Definition emax : Z := 128.

(** Conversion of an integer to [float]. *)
Definition of_int (z : Z) : spec_float := binary_normalize prec emax z 0 false.

Definition mul (x y : spec_float) : spec_float := SFmul prec emax x y.
Definition div (x y : spec_float) : spec_float := SFdiv prec emax x y.

(** Conversion of a [float] to an integer discards the fractional part
    (rounds toward zero).  The conversion of an infinity or a NaN is
    undefined in C; the model returns 0 there. *)
Definition trunc (x : spec_float) : Z :=
  match x with
  | S754_zero _ => 0
  | S754_finite s m e =>
      let a := if 0 <=? e then Z.shiftl (Zpos m) e else Z.shiftr (Zpos m) (- e) in
      if s then - a else a
  | S754_infinity _ | S754_nan => 0
  end.

(** The literal [100.0f]. *)
Definition hundred : spec_float := of_int 100.

End Float32.

(** ** Sample conversion *)

(** [convert_24_to_16]: the three bytes at [sample_24bit[0..2]]. *)
Definition convert_24_to_16 (s0 s1 s2 : byte) : Z :=
  let sample_24 :=
    to_int32 (Z.lor (Z.lor (Z.shiftl (u8 s2) 16) (Z.shiftl (u8 s1) 8)) (u8 s0)) in
  let sample_24 :=
    if negb (Z.land sample_24 0x800000 =? 0)
    then to_int32 (Z.lor (to_uint32 sample_24) 0xFF000000)
    else sample_24 in
  to_int16 (Z.shiftr sample_24 8).

(** [apply_volume]: [volume / 100.0f] is a [float] division, the product
    with the sample a [float] multiplication, and the cast to [int16_t]
    truncates.  [sample] stands for a value of [int16_t], which is all the
    unit passes.  A product outside [int16_t] makes the cast undefined in
    C; the value given here for it (the wrapped one) is the model's own,
    and volumes from 0 to 100, all [current_volume] holds, do not lead
    there. *)
Definition apply_volume (sample : Z) (volume : Z) : Z :=
  let volume_multiplier := Float32.div (Float32.of_int volume) Float32.hundred in
  to_int16 (Float32.trunc (Float32.mul (Float32.of_int sample) volume_multiplier)).

(** ** Data model *)

(** [wav_header_t] of [wav_player.h]; the 16-bit fields hold values of
    [uint16_t], the others of [uint32_t]. *)
Record wav_header_t : Type := {
  num_channels : Z;
  sample_rate : Z;
  bits_per_sample : Z;
  data_size : Z;
  block_align : Z
}.

(** [esp_err_t] is [int]; the three codes the unit uses, with the values
    ESP-IDF's [esp_err.h] gives them. *)
Definition ESP_OK : Z := 0.
Definition ESP_FAIL : Z := -1.
Definition ESP_ERR_INVALID_ARG : Z := 0x102.

Definition MIN_VOLUME : Z := 0.
Definition MAX_VOLUME : Z := 100.

(** [wav_player.c] redefines [BUFFER_SIZE] after including the header, so
    the value in force in the unit is 1024. *)
Definition BUFFER_SIZE : nat := 1024.

(** ** External calls and the trace *)

Inductive log_level : Type := LOGE | LOGI.

Inductive log_arg : Type :=
| LInt (z : Z)
| LStr (s : string).

(** One entry per call that leaves the unit: the C library's stream and
    heap functions, the sink callback, and the logger. *)
Inductive event : Type :=
| EvFopen (path : string) (ok : bool)
| EvFread (count : nat) (data : list byte)
| EvFclose
| EvMalloc (size : nat) (ok : bool)
| EvFree (null : bool)
| EvWrite (src : list byte) (size : nat) (ret : Z)
| EvLog (level : log_level) (fmt : string) (args : list log_arg).

(** What the unit cannot control: the contents of the file system, whether
    the [k]-th [malloc] of an invocation succeeds, and the bytes a fresh
    block happens to hold ([malloc] does not initialise it). *)
Record env : Type := {
  fs : string -> option (list byte);
  malloc_ok : nat -> bool;
  heap_garbage : nat -> nat -> byte
}.

(** An open stream: the bytes of the file and the read position. *)
Record FILE : Type := {
  f_data : list byte;
  f_pos : nat
}.

Section Player.

(** The object the sink reaches through its [user_data] pointer. *)
Context {U : Type}.

(** The mutable state: the file-scope [current_volume] and the sink's
    own object. *)
Record state : Type := {
  current_volume : Z;
  user_data : U
}.

(** [static int current_volume = 30;] *)
Definition initial_state (u : U) : state :=
  {| current_volume := 30; user_data := u |}.

(** A computation returns its value, the new state and the external
    calls it made, oldest first. *)
Definition M (A : Type) : Type := state -> A * state * list event.

Definition ret {A : Type} (a : A) : M A := fun st => (a, st, []).

Definition bind {A B : Type} (m : M A) (k : A -> M B) : M B :=
  fun st =>
    let '(a, st1, t1) := m st in
    let '(b, st2, t2) := k a st1 in
    (b, st2, t1 ++ t2).

Definition emit (e : event) : M unit := fun st => (tt, st, [e]).

Definition ESP_LOG (level : log_level) (fmt : string) (args : list log_arg) : M unit :=
  emit (EvLog level fmt args).

End Player.

Arguments state : clear implicits.
Arguments M : clear implicits.

Declare Scope player_scope.
Delimit Scope player_scope with player.
Notation "x <- m ;; k" := (bind m (fun x => k))
  (at level 20, m at level 99, k at level 200) : player_scope.
Notation "' pat <- m ;; k" := (bind m (fun x => match x with pat => k end))
  (at level 20, pat pattern, m at level 99, k at level 200) : player_scope.
Notation "m ;; k" := (bind m (fun _ => k))
  (at level 100, k at level 200, right associativity) : player_scope.
Local Open Scope string_scope.
Local Open Scope Z_scope.
Local Open Scope player_scope.

Section Library.

Context {U : Type}.

(** [fopen(filepath, "rb")] *)
Definition fopen (E : env) (filepath : string) : M U (option FILE) :=
  match fs E filepath with
  | Some d => emit (EvFopen filepath true) ;; ret (Some {| f_data := d; f_pos := 0 |})
  | None => emit (EvFopen filepath false) ;; ret None
  end.

(** [fread(buf, 1, count, f)]: the bytes obtained (at most [count], fewer
    only at the end of the file) and the advanced stream. *)
Definition fread (f : FILE) (count : nat) : M U (list byte * FILE) :=
  let data := take count (drop (f_pos f) (f_data f)) in
  emit (EvFread count data) ;;
  ret (data, {| f_data := f_data f; f_pos := (f_pos f + length data)%nat |}).

Definition fclose (f : FILE) : M U unit := emit EvFclose.

(** The [k]-th [malloc(size)] of an invocation. *)
Definition malloc (E : env) (k : nat) (size : nat) : M U (option (list byte)) :=
  if malloc_ok E k
  then emit (EvMalloc size true) ;; ret (Some (map (heap_garbage E k) (seq 0 size)))
  else emit (EvMalloc size false) ;; ret None.

Definition free (p : option (list byte)) : M U unit :=
  emit (EvFree (match p with Some _ => false | None => true end)).

End Library.

(** ** The unit [wav_player.c] *)

Section WavPlayer.

Context {U : Type}.

(** The sink: [write_cb(src, size, user_data)] sees the [size] bytes at
    [src] and returns an [esp_err_t].  It is code outside the unit: it
    updates the object behind [user_data], and it may call the volume
    functions of the unit, so it is given the whole state. *)
Definition wav_player_write_cb_t : Type := list byte -> nat -> state U -> Z * state U.

Definition call_write_cb (write_cb : wav_player_write_cb_t)
    (src : list byte) (size : nat) : M U Z :=
  fun st =>
    let '(r, st) := write_cb src size st in
    (r, st, [EvWrite src size r]).

Definition read_current_volume : M U Z := fun st => (current_volume st, st, []).

(** [a[i]] for a [uint8_t] array, promoted to [int]. *)
Definition idx (a : list byte) (i : nat) : Z := u8 (nth i a x00).

Definition is_valid_wav_header (header : wav_header_t) : M U bool :=
  if (num_channels header <? 1) || (num_channels header >? 2) then
    ESP_LOG LOGE "Unsupported number of channels: %d" [LInt (num_channels header)] ;;
    ret false
  else if negb (bits_per_sample header =? 16) && negb (bits_per_sample header =? 24) then
    ESP_LOG LOGE "Unsupported bits per sample: %d" [LInt (bits_per_sample header)] ;;
    ret false
  else if (sample_rate header <? 8000) || (sample_rate header >? 48000) then
    ESP_LOG LOGE "Invalid sample rate: %lu" [LInt (sample_rate header)] ;;
    ret false
  else
    let expected_block_align :=
      to_uint16 (num_channels header * (bits_per_sample header / 8)) in
    if negb (block_align header =? expected_block_align) then
      ESP_LOG LOGE "Invalid block align: %d (expected %d)"
        [LInt (block_align header); LInt expected_block_align] ;;
      ret false
    else ret true.

(** [read_wav_header(f, header)]: the result code, the header object
    after the call and the stream after the call. *)
Definition read_wav_header (f : FILE) (header : wav_header_t)
    : M U (Z * wav_header_t * FILE) :=
  '(wav_header, f) <- fread f 44 ;;
  if negb (length wav_header =? 44)%nat then
    ESP_LOG LOGE "Failed to read WAV header" [] ;;
    ret (ESP_FAIL, header, f)
  else
    let b := idx wav_header in
    ret (ESP_OK,
         {| num_channels := to_uint16 (Z.lor (b 22%nat) (Z.shiftl (b 23%nat) 8));
            sample_rate :=
              to_uint32 (to_int32
                (Z.lor (Z.lor (Z.lor (b 24%nat) (Z.shiftl (b 25%nat) 8))
                              (Z.shiftl (b 26%nat) 16))
                       (Z.shiftl (b 27%nat) 24)));
            bits_per_sample := to_uint16 (Z.lor (b 34%nat) (Z.shiftl (b 35%nat) 8));
            block_align := to_uint16 (Z.lor (b 32%nat) (Z.shiftl (b 33%nat) 8));
            data_size :=
              to_uint32 (to_int32
                (Z.lor (Z.lor (Z.lor (b 40%nat) (Z.shiftl (b 41%nat) 8))
                              (Z.shiftl (b 42%nat) 16))
                       (Z.shiftl (b 43%nat) 24))) |},
         f).

Definition wav_player_get_info (E : env) (filepath : string) (header : wav_header_t)
    : M U (Z * wav_header_t) :=
  fp <- fopen E filepath ;;
  match fp with
  | None =>
      ESP_LOG LOGE "Failed to open file %s" [LStr filepath] ;;
      ret (ESP_FAIL, header)
  | Some fp =>
      '(r, header, fp) <- read_wav_header fp header ;;
      fclose fp ;;
      ret (r, header)
  end.

(** Reading element [i] of a byte array viewed as an array of [int16_t],
    on the little-endian target. *)
Definition load_int16 (a : list byte) (i : nat) : Z :=
  to_int16 (Z.lor (idx a (2 * i)) (Z.shiftl (idx a (2 * i + 1)) 8)).

(** Assigning [v] to element [i] of a byte array viewed as an array of
    [int16_t], on the little-endian target. *)
Definition store_int16 (a : list byte) (i : nat) (v : Z) : list byte :=
  <[(2 * i + 1)%nat := byte_of_Z (Z.shiftr v 8)]> (<[(2 * i)%nat := byte_of_Z v]> a).

(** The 16-bit branch: [sample_count = bytes_read / 2] samples are
    scaled into [processed_buffer]. *)
Definition process_16 (volume : Z) (buffer : list byte) (bytes_read : nat)
    (processed_buffer : list byte) : list byte :=
  let sample_count := (bytes_read / 2)%nat in
  fold_left
    (fun processed i => store_int16 processed i (apply_volume (load_int16 buffer i) volume))
    (seq 0 sample_count) processed_buffer.

(** The 24-bit branch: [for (i = 0; i < bytes_read; i += 3)].  Each
    iteration computes [sample] and [processed] into locals of the loop
    body; no statement of the body stores to [processed_buffer].  (The
    last iteration may read up to two bytes past the bytes just read; a
    read past the end of the block is given [x00] here.) *)
Definition process_24 (volume : Z) (buffer : list byte) (bytes_read : nat)
    (processed_buffer : list byte) : list byte :=
  fold_left
    (fun out i =>
       let sample :=
         convert_24_to_16 (nth i buffer x00) (nth (i + 1) buffer x00)
                          (nth (i + 2) buffer x00) in
       let processed := apply_volume sample volume in
       out)
    (map (fun k => (3 * k)%nat) (seq 0 ((bytes_read + 2) / 3)%nat)) processed_buffer.

(** The body of the [while] loop between [fread] and [write_cb]. *)
Definition process_chunk (bits : Z) (volume : Z) (buffer : list byte)
    (bytes_read : nat) (processed_buffer : list byte) : list byte :=
  if bits =? 16 then process_16 volume buffer bytes_read processed_buffer
  else if bits =? 24 then process_24 volume buffer bytes_read processed_buffer
  else processed_buffer.

(** The [while] loop of [wav_player_play_file].  Every iteration that
    continues has consumed at least one byte, so the number of bytes
    left in the stream bounds the iterations; [fuel] is that bound, and
    [None] reports that it ran out.  Nothing runs between the [fread] and
    the [write_cb] of an iteration but the unit's own code, so the
    [current_volume] the samples of a chunk are scaled by is read once. *)
Fixpoint play_loop (fuel : nat) (write_cb : wav_player_write_cb_t) (bits : Z)
    (fp : FILE) (buffer processed_buffer : list byte) (r : Z) : M U (option Z) :=
  match fuel with
  | O => ret None
  | S fuel =>
      '(chunk, fp) <- fread fp BUFFER_SIZE ;;
      let bytes_read := length chunk in
      if negb (0 <? bytes_read)%nat then ret (Some r)
      else
        let buffer := (chunk ++ drop bytes_read buffer)%list in
        volume <- read_current_volume ;;
        let processed_buffer :=
          process_chunk bits volume buffer bytes_read processed_buffer in
        r <- call_write_cb write_cb (take bytes_read processed_buffer) bytes_read ;;
        if negb (r =? ESP_OK) then
          ESP_LOG LOGE "Write callback failed" [] ;;
          ret (Some r)
        else play_loop fuel write_cb bits fp buffer processed_buffer r
  end.

(** The local [wav_header_t wav_header;] before [read_wav_header] fills
    it.  The value is never read: the header is used only after a
    successful [read_wav_header], which assigns every field. *)
Definition uninitialised_header : wav_header_t :=
  {| num_channels := 0; sample_rate := 0; bits_per_sample := 0;
     data_size := 0; block_align := 0 |}.

Definition wav_player_play_file (E : env) (filepath : string)
    (write_cb : option wav_player_write_cb_t) : M U (option Z) :=
  match write_cb with
  | None => ret (Some ESP_ERR_INVALID_ARG)
  | Some write_cb =>
      fp <- fopen E filepath ;;
      match fp with
      | None =>
          ESP_LOG LOGE "Failed to open file %s" [LStr filepath] ;;
          ret (Some ESP_FAIL)
      | Some fp =>
          '(r, wav_header, fp) <- read_wav_header fp uninitialised_header ;;
          ok <- (if negb (r =? ESP_OK) then ret false
                 else is_valid_wav_header wav_header) ;;
          if negb ok then
            ESP_LOG LOGE "Invalid WAV header" [] ;;
            fclose fp ;;
            ret (Some ESP_FAIL)
          else
            buffer <- malloc E 0 BUFFER_SIZE ;;
            processed_buffer <- malloc E 1 BUFFER_SIZE ;;
            match buffer, processed_buffer with
            | Some buf, Some pbuf =>
                r <- play_loop (S (length (f_data fp) - f_pos fp)) write_cb
                       (bits_per_sample wav_header) fp buf pbuf ESP_OK ;;
                free processed_buffer ;;
                free buffer ;;
                fclose fp ;;
                ret r
            | _, _ =>
                ESP_LOG LOGE "Failed to allocate buffers" [] ;;
                free buffer ;;
                free processed_buffer ;;
                fclose fp ;;
                ret (Some ESP_FAIL)
            end
      end
  end.

Definition wav_player_set_volume (volume : Z) : M U unit :=
  fun st =>
    let volume := if volume <? MIN_VOLUME then MIN_VOLUME else volume in
    let volume := if volume >? MAX_VOLUME then MAX_VOLUME else volume in
    (tt, {| current_volume := volume; user_data := user_data st |},
     [EvLog LOGI "Volume set to %d%%" [LInt volume]]).

Definition wav_player_increase_volume (amount : Z) : M U unit :=
  fun st => wav_player_set_volume (int_add (current_volume st) amount) st.

Definition wav_player_decrease_volume (amount : Z) : M U unit :=
  fun st => wav_player_set_volume (int_sub (current_volume st) amount) st.

Definition wav_player_get_volume : M U Z := read_current_volume.

End WavPlayer.

(** * Vocabulary of the statements *)

Section Vocabulary.

Context {U : Type}.

(** The four rules of the validator, as the specification lists them. *)
Definition header_rules (h : wav_header_t) : Prop :=
  1 <= num_channels h <= 2
  /\ (bits_per_sample h = 16 \/ bits_per_sample h = 24)
  /\ 8000 <= sample_rate h <= 48000
  /\ block_align h = num_channels h * (bits_per_sample h / 8).

(** Two headers that agree on the four validated fields. *)
Definition same_format (h h' : wav_header_t) : Prop :=
  num_channels h' = num_channels h
  /\ bits_per_sample h' = bits_per_sample h
  /\ sample_rate h' = sample_rate h
  /\ block_align h' = block_align h.

(** The boolean [is_valid_wav_header] returns. *)
Definition valid (h : wav_header_t) (st : state U) : bool :=
  fst (fst (is_valid_wav_header h st)).

(** The value, the final state and the external calls of a run. *)
Definition eval {A : Type} (m : M U A) (st : state U) : A := fst (fst (m st)).
Definition exec {A : Type} (m : M U A) (st : state U) : state U := snd (fst (m st)).
Definition calls {A : Type} (m : M U A) (st : state U) : list event := snd (m st).

(** The three mutators of the volume, and a sequence of them run in
    order. *)
Inductive volume_op : Type :=
| VSet (volume : Z)
| VIncrease (amount : Z)
| VDecrease (amount : Z).

Definition do_volume_op (op : volume_op) : M U unit :=
  match op with
  | VSet volume => wav_player_set_volume volume
  | VIncrease amount => wav_player_increase_volume amount
  | VDecrease amount => wav_player_decrease_volume amount
  end.

Fixpoint do_volume_ops (ops : list volume_op) : M U unit :=
  match ops with
  | [] => ret tt
  | op :: ops => bind (do_volume_op op) (fun _ => do_volume_ops ops)
  end.

End Vocabulary.

(** Saturation of a level into the volume range. *)
Definition clamp (v : Z) : Z := Z.max MIN_VOLUME (Z.min MAX_VOLUME v).

(** Negation of an [int]. *)
Definition int_neg (a : Z) : Z := to_int32 (- a).

(** The unsigned value of three bytes read as a little-endian 24-bit
    quantity. *)
Definition le24 (s0 s1 s2 : byte) : Z := u8 s0 + 2 ^ 8 * u8 s1 + 2 ^ 16 * u8 s2.

(** Sign extension of a 24-bit quantity to 32 bits: when bit 23 is set the
    top byte of the 32-bit word is filled with [0xFF], and the word is read
    as an [int32_t]. *)
Definition sign_extend_24 (v : Z) : Z :=
  if Z.testbit v 23 then to_int32 (Z.lor v 0xFF000000) else v.


(** The value of a byte string read as a little-endian unsigned integer. *)
Definition le_bytes (bs : list byte) : Z :=
  fold_right (fun b acc => u8 b + 256 * acc) 0 bs.

(** The [n] bytes at offset [off] of [d]. *)
Definition field (d : list byte) (off n : nat) : list byte := take n (drop off d).

(** The header a 44-byte prefix [d] describes: each field is the
    little-endian integer found at its fixed offset. *)
Definition header_at (d : list byte) : wav_header_t :=
  {| num_channels := le_bytes (field d 22 2);
     sample_rate := le_bytes (field d 24 4);
     bits_per_sample := le_bytes (field d 34 2);
     data_size := le_bytes (field d 40 4);
     block_align := le_bytes (field d 32 2) |}.

(** The bytes of a stream not yet consumed. *)
Definition remaining (f : FILE) : list byte := drop (f_pos f) (f_data f).

(** The stream [f] after [n] more bytes have been consumed. *)
Definition advance (f : FILE) (n : nat) : FILE :=
  {| f_data := f_data f; f_pos := (f_pos f + n)%nat |}.

(** ** Concrete inputs *)

(** A canonical 44-byte header: mono, 8000 Hz, 16 bits per sample, block
    alignment 2, followed by the [data] tag and a declared size of 3. *)
Definition wav16_header : list byte :=
  [x52; x49; x46; x46;  x27; x00; x00; x00;  x57; x41; x56; x45;
   x66; x6d; x74; x20;  x10; x00; x00; x00;  x01; x00;  x01; x00;
   x40; x1f; x00; x00;  x80; x3e; x00; x00;  x02; x00;  x10; x00;
   x64; x61; x74; x61;  x03; x00; x00; x00].

(** The same for 24 bits per sample, block alignment 3. *)
Definition wav24_header : list byte :=
  [x52; x49; x46; x46;  x27; x00; x00; x00;  x57; x41; x56; x45;
   x66; x6d; x74; x20;  x10; x00; x00; x00;  x01; x00;  x01; x00;
   x40; x1f; x00; x00;  xc0; x5d; x00; x00;  x03; x00;  x18; x00;
   x64; x61; x74; x61;  x03; x00; x00; x00].

(** A file system holding one file, a heap whose allocations succeed and
    whose fresh blocks hold the byte [0xAA] throughout. *)
Definition one_file (name : string) (content : list byte) : env :=
  {| fs := fun p => if String.eqb p name then Some content else None;
     malloc_ok := fun _ => true;
     heap_garbage := fun _ _ => xaa |}.

(** A sink that accepts every chunk and counts the bytes it was given. *)
Definition counting_sink : @wav_player_write_cb_t nat :=
  fun _ size st =>
    (ESP_OK, {| current_volume := current_volume st;
                user_data := (user_data st + size)%nat |}).

(** A sink that accepts [k] chunks and fails with code [code] from then
    on; its object is the number of chunks still to accept. *)
Definition failing_sink (code : Z) : @wav_player_write_cb_t nat :=
  fun _ _ st =>
    match user_data st with
    | O => (code, st)
    | S k => (ESP_OK, {| current_volume := current_volume st; user_data := k |})
    end.

(** ** Reading a trace *)

(** The sizes of the successive [fread] results, of the successive chunks
    handed to the sink, and the codes the sink returned. *)
Fixpoint read_sizes (t : list event) : list nat :=
  match t with
  | [] => []
  | EvFread _ d :: t => length d :: read_sizes t
  | _ :: t => read_sizes t
  end.

Fixpoint write_sizes (t : list event) : list nat :=
  match t with
  | [] => []
  | EvWrite _ n _ :: t => n :: write_sizes t
  | _ :: t => write_sizes t
  end.

Fixpoint write_results (t : list event) : list Z :=
  match t with
  | [] => []
  | EvWrite _ _ r :: t => r :: write_results t
  | _ :: t => write_results t
  end.

Definition is_write (e : event) : bool :=
  match e with EvWrite _ _ _ => true | _ => false end.

Definition is_fopen (e : event) : bool :=
  match e with EvFopen _ _ => true | _ => false end.

Definition is_log (e : event) : bool :=
  match e with EvLog _ _ _ => true | _ => false end.

(** ** Failure causes *)

(** The causes of failure the specification tells apart. *)
Inductive failure_kind : Type :=
| ArgumentError
| OpenError
| FormatError
| UnsupportedFormatError
| AllocationError
| SinkError.

(** The cause that stops an invocation of [wav_player_play_file] before
    it streams, if any, read off its inputs in the order the function
    checks them. *)
Definition setup_failure {U : Type} (E : env) (filepath : string)
    (write_cb : option (@wav_player_write_cb_t U)) (st : state U)
    : option failure_kind :=
  match write_cb with
  | None => Some ArgumentError
  | Some _ =>
      match fs E filepath with
      | None => Some OpenError
      | Some data =>
          if negb (44 <=? length data)%nat then Some FormatError
          else if negb (valid (header_at (take 44 data)) st) then Some UnsupportedFormatError
          else if negb (malloc_ok E 0 && malloc_ok E 1) then Some AllocationError
          else None
      end
  end.

(** The code [wav_player_play_file] returns for each cause; a sink failure
    carries the sink's own code. *)
Definition error_code (k : failure_kind) (sink_code : Z) : Z :=
  match k with
  | ArgumentError => ESP_ERR_INVALID_ARG
  | SinkError => sink_code
  | OpenError | FormatError | UnsupportedFormatError | AllocationError => ESP_FAIL
  end.

(** The number of times a run opened a file. *)
Definition fopen_count (t : list event) : nat := length (List.filter is_fopen t).


(** ** Further vocabulary *)

(** The bytes of the successive [fread] results, in order. *)
Fixpoint read_data (t : list event) : list byte :=
  match t with
  | [] => []
  | EvFread _ d :: t => (d ++ read_data t)%list
  | _ :: t => read_data t
  end.

(** The sink calls of a trace, as (bytes, size) pairs. *)
Fixpoint write_calls (t : list event) : list (list byte * nat) :=
  match t with
  | [] => []
  | EvWrite src n _ :: t => (src, n) :: write_calls t
  | _ :: t => write_calls t
  end.

(** How often a trace closes a stream, opens one successfully, obtains a
    block from [malloc], and releases a block that is not null. *)
Definition count_events (p : event -> bool) (t : list event) : nat :=
  length (List.filter p t).

Definition is_fclose (e : event) : bool :=
  match e with EvFclose => true | _ => false end.

Definition is_fopen_ok (e : event) : bool :=
  match e with EvFopen _ true => true | _ => false end.

Definition is_malloc_ok (e : event) : bool :=
  match e with EvMalloc _ true => true | _ => false end.

Definition is_free_block (e : event) : bool :=
  match e with EvFree false => true | _ => false end.

(** The offsets of a 44-byte prefix that [read_wav_header] looks at. *)
Definition header_offsets : list nat :=
  [22; 23; 24; 25; 26; 27; 32; 33; 34; 35; 40; 41; 42; 43]%nat.

(** The two bytes of a 16-bit value, low byte first. *)
Definition le16_bytes (v : Z) : list byte := [byte_of_Z v; byte_of_Z (Z.shiftr v 8)].

(** [p] holds of the [n] integers from [lo] upwards. *)
Fixpoint all_from (n : nat) (p : Z -> bool) (lo : Z) : bool :=
  match n with
  | O => true
  | S n => p lo && all_from n p (lo + 1)
  end.

(** The result code and the header of a [read_wav_header] or
    [wav_player_get_info] result. *)
Definition parsed_code (x : Z * wav_header_t * FILE) : Z := fst (fst x).
Definition parsed_header (x : Z * wav_header_t * FILE) : wav_header_t := snd (fst x).

(** The calls the streaming loop can make: reads, sink calls, log lines. *)
Definition is_stream_event (e : event) : bool :=
  match e with
  | EvFread _ _ | EvWrite _ _ _ | EvLog _ _ _ => true
  | _ => false
  end.

(** The events before and after the streaming loop in a run that streams. *)
Definition stream_prefix (filepath : string) (data : list byte) : list event :=
  [EvFopen filepath true; EvFread 44 (take 44 data);
   EvMalloc BUFFER_SIZE true; EvMalloc BUFFER_SIZE true].

Definition stream_suffix : list event := [EvFree false; EvFree false; EvFclose].

(** A sink that leaves [current_volume] alone. *)
Definition keeps_volume {U : Type} (cb : @wav_player_write_cb_t U) : Prop :=
  forall (src : list byte) (size : nat) (st : state U),
    current_volume (snd (cb src size st)) = current_volume st.


(** * Properties *)

(** ** Machine integers and bytes *)

Lemma to_signed_id (w z : Z) :
  0 < w -> - 2 ^ (w - 1) <= z < 2 ^ (w - 1) -> to_signed w z = z.
Proof.
  intros Hw Hz. unfold to_signed.
  assert (Hp : 2 ^ w = 2 * 2 ^ (w - 1)).
  { replace w with (Z.succ (w - 1)) at 1 by lia. apply Z.pow_succ_r. lia. }
  assert (Hpos : 0 < 2 ^ (w - 1)) by (apply Z.pow_pos_nonneg; lia).
  destruct (Z_lt_le_dec z 0) as [Hneg | Hnn].
  - rewrite <- (Z.mod_unique_pos z (2 ^ w) (-1) (z + 2 ^ w)) by lia.
    destruct (Z.ltb_spec (z + 2 ^ w) (2 ^ (w - 1))); lia.
  - rewrite Z.mod_small by lia.
    destruct (Z.ltb_spec z (2 ^ (w - 1))); lia.
Qed.

Lemma to_int32_id (z : Z) : INT_MIN <= z <= INT_MAX -> to_int32 z = z.
Proof.
  unfold INT_MIN, INT_MAX. intros Hz. apply to_signed_id; [lia |].
  change (2 ^ (32 - 1)) with (2 ^ 31). lia.
Qed.

Lemma to_int16_id (z : Z) : - 32768 <= z <= 32767 -> to_int16 z = z.
Proof.
  intros Hz. apply to_signed_id; [lia |].
  change (2 ^ (16 - 1)) with 32768. lia.
Qed.

Lemma to_uint16_id (z : Z) : 0 <= z < 65536 -> to_uint16 z = z.
Proof. intros Hz. unfold to_uint16, to_unsigned. apply Z.mod_small. exact Hz. Qed.

Lemma to_uint32_id (z : Z) : 0 <= z < 2 ^ 32 -> to_uint32 z = z.
Proof. intros Hz. unfold to_uint32, to_unsigned. apply Z.mod_small. exact Hz. Qed.

(** Converting an [int] to [uint32_t] undoes the wrap of the [int]. *)
Lemma to_uint32_to_int32 (z : Z) : to_uint32 (to_int32 z) = to_uint32 z.
Proof.
  unfold to_uint32, to_int32, to_unsigned, to_signed.
  destruct (z mod 2 ^ 32 <? 2 ^ (32 - 1)).
  - apply Z.mod_mod. lia.
  - rewrite <- (Z.mod_mod z (2 ^ 32)) at 2 by lia.
    rewrite <- Zminus_mod_idemp_r, Z.mod_same by lia.
    f_equal. lia.
Qed.

Lemma u8_range (b : byte) : 0 <= u8 b < 256.
Proof.
  unfold u8. pose proof (Byte.to_N_bounded b) as Hb. lia.
Qed.

Lemma u8_byte_of_Z (z : Z) : u8 (byte_of_Z z) = z mod 256.
Proof.
  unfold byte_of_Z, u8.
  assert (Hm : 0 <= z mod 256 < 256) by (apply Z.mod_pos_bound; lia).
  destruct (Byte.of_N (Z.to_N (z mod 256))) as [b |] eqn:Hof.
  - apply Byte.to_of_N in Hof. rewrite Hof. lia.
  - apply Byte.of_N_None_iff in Hof. lia.
Qed.

(** Or-ing a value shifted left by [k] onto a value below [2 ^ k] adds
    them: the two occupy disjoint bits. *)
Lemma lor_shiftl_low (lo hi k : Z) :
  0 <= k -> 0 <= lo < 2 ^ k -> Z.lor lo (Z.shiftl hi k) = lo + hi * 2 ^ k.
Proof.
  intros Hk Hlo.
  rewrite Z.shiftl_mul_pow2 by exact Hk.
  rewrite <- Z.lxor_lor, <- Z.add_nocarry_lxor; [reflexivity | |];
    rewrite <- Z.shiftl_mul_pow2 by exact Hk;
    apply Z.bits_inj'; intros n Hn;
    rewrite Z.land_spec, Z.bits_0;
    destruct (Z_lt_le_dec n k) as [Hlt | Hge].
  - rewrite Z.shiftl_spec_low by exact Hlt. apply andb_false_r.
  - destruct (Z.eq_dec lo 0) as [-> | Hne]; [rewrite Z.bits_0; reflexivity |].
    rewrite (Z.bits_above_log2 lo n); [reflexivity | lia |].
    apply Z.log2_lt_pow2; [lia |].
    apply Z.lt_le_trans with (2 ^ k); [lia |].
    apply Z.pow_le_mono_r; lia.
  - rewrite Z.shiftl_spec_low by exact Hlt. apply andb_false_r.
  - destruct (Z.eq_dec lo 0) as [-> | Hne]; [rewrite Z.bits_0; reflexivity |].
    rewrite (Z.bits_above_log2 lo n); [reflexivity | lia |].
    apply Z.log2_lt_pow2; [lia |].
    apply Z.lt_le_trans with (2 ^ k); [lia |].
    apply Z.pow_le_mono_r; lia.
Qed.

(** ** Header validation *)

Section Validation.

Context {U : Type}.

Lemma valid_rules (h : wav_header_t) (st : state U) :
  valid h st = true <-> header_rules h.
Proof.
  unfold valid, header_rules, is_valid_wav_header.
  destruct (Z.ltb_spec (num_channels h) 1) as [Hc1 | Hc1]; cbn [orb].
  { cbn. split; [discriminate | lia]. }
  destruct (Z.gtb_spec (num_channels h) 2) as [Hc2 | Hc2].
  { cbn. split; [discriminate | lia]. }
  destruct (Z.eqb_spec (bits_per_sample h) 16) as [Hb16 | Hb16]; cbn [negb andb].
  - destruct (Z.ltb_spec (sample_rate h) 8000) as [Hr1 | Hr1]; cbn [orb].
    { cbn. split; [discriminate | lia]. }
    destruct (Z.gtb_spec (sample_rate h) 48000) as [Hr2 | Hr2].
    { cbn. split; [discriminate | lia]. }
    rewrite Hb16. change (16 / 8) with 2.
    rewrite to_uint16_id by lia.
    destruct (Z.eqb_spec (block_align h) (num_channels h * 2)) as [Ha | Ha]; cbn.
    + split; [intros _ | reflexivity]. repeat split; auto; lia.
    + split; [discriminate | tauto].
  - destruct (Z.eqb_spec (bits_per_sample h) 24) as [Hb24 | Hb24]; cbn [negb].
    + destruct (Z.ltb_spec (sample_rate h) 8000) as [Hr1 | Hr1]; cbn [orb].
      { cbn. split; [discriminate | lia]. }
      destruct (Z.gtb_spec (sample_rate h) 48000) as [Hr2 | Hr2].
      { cbn. split; [discriminate | lia]. }
      rewrite Hb24. change (24 / 8) with 3.
      rewrite to_uint16_id by lia.
      destruct (Z.eqb_spec (block_align h) (num_channels h * 3)) as [Ha | Ha]; cbn.
      * split; [intros _ | reflexivity]. repeat split; auto; lia.
      * split; [discriminate | tauto].
    + cbn. split; [discriminate | tauto].
Qed.

(** C1.  [is_valid_wav_header] returns [true] exactly when the four
    rules hold together (one or two channels, 16 or 24 bits per sample,
    a sample rate from 8000 to 48000, and a block alignment equal to
    channels times bytes per sample), and the boolean depends on those
    four fields only: any header that agrees on them, whatever its
    [data_size] and whatever the state it is validated in, gets the same
    answer. *)
Theorem is_valid_wav_header_rules (h : wav_header_t) (st : state U) :
  (valid h st = true <-> header_rules h)
  /\ (forall (h' : wav_header_t) (st' : state U),
        same_format h h' -> valid h' st' = valid h st).
Proof.
  split; [apply valid_rules |].
  intros h' st' (Hc & Hb & Hr & Ha).
  assert (Hiff : header_rules h' <-> header_rules h).
  { unfold header_rules. rewrite Hc, Hb, Hr, Ha. reflexivity. }
  destruct (valid h st) eqn:Hv.
  - apply (proj2 (valid_rules h' st')), (proj2 Hiff), (proj1 (valid_rules h st)), Hv.
  - destruct (valid h' st') eqn:Hv'; [| reflexivity].
    assert (Hv2 : valid h st = true)
      by apply (proj2 (valid_rules h st)), (proj1 Hiff), (proj1 (valid_rules h' st')), Hv'.
    congruence.
Qed.

End Validation.

(** ** 24-bit to 16-bit conversion *)

Lemma land_pow2 (a n : Z) :
  0 <= n -> Z.land a (2 ^ n) = if Z.testbit a n then 2 ^ n else 0.
Proof.
  intros Hn. apply Z.bits_inj'. intros m Hm.
  rewrite Z.land_spec, Z.pow2_bits_eqb by exact Hn.
  destruct (Z.eqb_spec n m) as [-> | Hne].
  - destruct (Z.testbit a m) eqn:Ha.
    + rewrite Z.pow2_bits_true by exact Hm. reflexivity.
    + rewrite Z.bits_0. reflexivity.
  - rewrite andb_false_r.
    destruct (Z.testbit a n).
    + rewrite Z.pow2_bits_false by exact Hne. reflexivity.
    + rewrite Z.bits_0. reflexivity.
Qed.

Lemma le24_range (s0 s1 s2 : byte) : 0 <= le24 s0 s1 s2 < 2 ^ 24.
Proof.
  unfold le24. pose proof (u8_range s0). pose proof (u8_range s1).
  pose proof (u8_range s2). lia.
Qed.

(** The [int] the first statement of [convert_24_to_16] assembles. *)
Lemma assemble_24 (s0 s1 s2 : byte) :
  Z.lor (Z.lor (Z.shiftl (u8 s2) 16) (Z.shiftl (u8 s1) 8)) (u8 s0) = le24 s0 s1 s2.
Proof.
  pose proof (u8_range s0) as H0. pose proof (u8_range s1) as H1.
  pose proof (u8_range s2) as H2.
  rewrite (Z.lor_comm (Z.shiftl (u8 s2) 16)).
  rewrite (Z.shiftl_mul_pow2 (u8 s1)) by lia.
  rewrite lor_shiftl_low by lia.
  rewrite Z.lor_comm.
  replace (u8 s1 * 2 ^ 8 + u8 s2 * 2 ^ 16) with ((u8 s1 + u8 s2 * 2 ^ 8) * 2 ^ 8) by lia.
  rewrite <- Z.shiftl_mul_pow2 by lia.
  rewrite lor_shiftl_low by lia.
  unfold le24. lia.
Qed.

Lemma testbit_23 (v : Z) :
  0 <= v < 2 ^ 24 -> Z.testbit v 23 = (2 ^ 23 <=? v).
Proof.
  intros Hv.
  destruct (Z.testbit v 23) eqn:Hb.
  - apply Z.testbit_true in Hb; [| lia].
    change (2 ^ 23) with 8388608 in *. change (2 ^ 24) with 16777216 in *.
    symmetry. apply Z.leb_le. Z.div_mod_to_equations. lia.
  - apply Z.testbit_false in Hb; [| lia].
    change (2 ^ 23) with 8388608 in *. change (2 ^ 24) with 16777216 in *.
    symmetry. apply Z.leb_gt. Z.div_mod_to_equations. lia.
Qed.

Lemma sign_extend_24_value (v : Z) :
  0 <= v < 2 ^ 24 ->
  sign_extend_24 v = v - (if Z.testbit v 23 then 2 ^ 24 else 0).
Proof.
  intros Hv. unfold sign_extend_24.
  pose proof (testbit_23 v Hv) as Hb.
  destruct (Z.testbit v 23); [| lia].
  symmetry in Hb. apply Z.leb_le in Hb.
  change 0xFF000000 with (Z.shiftl 255 24).
  rewrite lor_shiftl_low by lia.
  change (2 ^ 23) with 8388608 in *. change (2 ^ 24) with 16777216 in *.
  unfold to_int32, to_signed.
  change (2 ^ 32) with 4294967296. change (2 ^ (32 - 1)) with 2147483648.
  rewrite Z.mod_small by lia.
  destruct (Z.ltb_spec (v + 255 * 16777216) 2147483648); lia.
Qed.

Lemma convert_24_to_16_shift (s0 s1 s2 : byte) :
  convert_24_to_16 s0 s1 s2 = Z.shiftr (sign_extend_24 (le24 s0 s1 s2)) 8.
Proof.
  pose proof (le24_range s0 s1 s2) as Hv.
  unfold convert_24_to_16. rewrite assemble_24.
  set (v := le24 s0 s1 s2) in *.
  assert (H32 : to_int32 v = v).
  { apply to_int32_id. unfold INT_MIN, INT_MAX.
    change (2 ^ 24) with 16777216 in Hv. lia. }
  rewrite H32.
  change 0x800000 with (2 ^ 23). rewrite land_pow2 by lia.
  assert (Hu : to_uint32 v = v).
  { apply to_uint32_id. change (2 ^ 24) with 16777216 in Hv. lia. }
  rewrite Hu.
  assert (Hsel : (if negb ((if Z.testbit v 23 then 2 ^ 23 else 0) =? 0)
                  then to_int32 (Z.lor v 0xFF000000) else v) = sign_extend_24 v).
  { unfold sign_extend_24. destruct (Z.testbit v 23); reflexivity. }
  rewrite Hsel.
  apply to_int16_id.
  rewrite sign_extend_24_value by exact Hv.
  rewrite Z.shiftr_div_pow2 by lia.
  pose proof (testbit_23 v Hv) as Hb.
  change (2 ^ 23) with 8388608 in *. change (2 ^ 24) with 16777216 in *.
  change (2 ^ 8) with 256.
  destruct (Z.testbit v 23); symmetry in Hb;
    [apply Z.leb_le in Hb | apply Z.leb_gt in Hb];
    Z.div_mod_to_equations; lia.
Qed.

(** C4.  [convert_24_to_16] assembles the three bytes into their
    little-endian 24-bit value, sign-extends it to 32 bits (the top byte
    becomes [0xFF] exactly when bit 23 is set, which subtracts [2 ^ 24]),
    and shifts right arithmetically by 8; the result fits 16 bits and is
    negative exactly when bit 23 of the sample is set.  For the bytes
    [01 00 80] it is [-32768]. *)
Theorem convert_24_to_16_sign_extends (s0 s1 s2 : byte) :
  let v := le24 s0 s1 s2 in
  convert_24_to_16 s0 s1 s2 = Z.shiftr (sign_extend_24 v) 8
  /\ sign_extend_24 v = v - (if Z.testbit v 23 then 2 ^ 24 else 0)
  /\ - 32768 <= convert_24_to_16 s0 s1 s2 <= 32767
  /\ (convert_24_to_16 s0 s1 s2 <? 0) = Z.testbit v 23
  /\ convert_24_to_16 x01 x00 x80 = - 32768.
Proof.
  intros v. pose proof (le24_range s0 s1 s2) as Hv. fold v in Hv.
  assert (Hval := sign_extend_24_value v Hv).
  assert (Hsh := convert_24_to_16_shift s0 s1 s2). fold v in Hsh.
  split; [exact Hsh |]. split; [exact Hval |].
  rewrite Hsh, Hval, Z.shiftr_div_pow2 by lia.
  pose proof (testbit_23 v Hv) as Hb.
  change (2 ^ 23) with 8388608 in *. change (2 ^ 24) with 16777216 in *.
  change (2 ^ 8) with 256.
  destruct (Z.testbit v 23); symmetry in Hb;
    [apply Z.leb_le in Hb | apply Z.leb_gt in Hb].
  - repeat split; try reflexivity;
      [| | apply Z.ltb_lt]; Z.div_mod_to_equations; lia.
  - repeat split; try reflexivity;
      [| | apply Z.ltb_ge]; Z.div_mod_to_equations; lia.
Qed.

(** ** Header parsing *)

Lemma le16_lor (b0 b1 : byte) :
  to_uint16 (Z.lor (u8 b0) (Z.shiftl (u8 b1) 8)) = le_bytes [b0; b1].
Proof.
  pose proof (u8_range b0). pose proof (u8_range b1).
  rewrite lor_shiftl_low by lia.
  cbn [le_bytes fold_right]. rewrite to_uint16_id; lia.
Qed.

Lemma le32_lor (b0 b1 b2 b3 : byte) :
  to_uint32 (to_int32
    (Z.lor (Z.lor (Z.lor (u8 b0) (Z.shiftl (u8 b1) 8)) (Z.shiftl (u8 b2) 16))
           (Z.shiftl (u8 b3) 24)))
  = le_bytes [b0; b1; b2; b3].
Proof.
  pose proof (u8_range b0). pose proof (u8_range b1).
  pose proof (u8_range b2). pose proof (u8_range b3).
  rewrite to_uint32_to_int32.
  rewrite (lor_shiftl_low (u8 b0)) by lia.
  rewrite (lor_shiftl_low (u8 b0 + _)) by lia.
  rewrite lor_shiftl_low by lia.
  cbn [le_bytes fold_right]. rewrite to_uint32_id; lia.
Qed.

Section Parsing.

Context {U : Type}.

Lemma parse_fields (d : list byte) :
  length d = 44%nat ->
  {| num_channels := to_uint16 (Z.lor (idx d 22) (Z.shiftl (idx d 23) 8));
     sample_rate :=
       to_uint32 (to_int32
         (Z.lor (Z.lor (Z.lor (idx d 24) (Z.shiftl (idx d 25) 8))
                       (Z.shiftl (idx d 26) 16))
                (Z.shiftl (idx d 27) 24)));
     bits_per_sample := to_uint16 (Z.lor (idx d 34) (Z.shiftl (idx d 35) 8));
     data_size :=
       to_uint32 (to_int32
         (Z.lor (Z.lor (Z.lor (idx d 40) (Z.shiftl (idx d 41) 8))
                       (Z.shiftl (idx d 42) 16))
                (Z.shiftl (idx d 43) 24)));
     block_align := to_uint16 (Z.lor (idx d 32) (Z.shiftl (idx d 33) 8)) |}
  = header_at d.
Proof.
  intros Hlen.
  do 44 (destruct d as [| ? d]; [discriminate Hlen |]).
  destruct d; [| discriminate Hlen].
  unfold header_at, field, idx. cbn [nth take drop].
  rewrite !le16_lor, !le32_lor. reflexivity.
Qed.

Lemma length_remaining (f : FILE) :
  length (remaining f) = (length (f_data f) - f_pos f)%nat.
Proof. unfold remaining. apply length_drop. Qed.

Lemma read_wav_header_run (f : FILE) (header : wav_header_t) (st : state U) :
  read_wav_header f header st =
    (if (44 <=? length (remaining f))%nat
     then (ESP_OK, header_at (take 44 (remaining f)), advance f 44,
           st, [EvFread 44 (take 44 (remaining f))])
     else (ESP_FAIL, header, advance f (length (remaining f)),
           st, [EvFread 44 (take 44 (remaining f));
                EvLog LOGE "Failed to read WAV header" []])).
Proof.
  set (d := take 44 (remaining f)).
  unfold read_wav_header.
  cbv beta iota zeta delta [bind fread emit ret ESP_LOG].
  fold (remaining f). fold d.
  assert (Hd : length d = Nat.min 44 (length (remaining f)))
    by apply length_take.
  destruct (Nat.leb_spec 44 (length (remaining f))) as [Hge | Hlt].
  - assert (H44 : length d = 44%nat) by lia.
    rewrite H44. cbn [Nat.eqb negb app].
    rewrite (parse_fields d H44). reflexivity.
  - assert (Hn : (length d =? 44)%nat = false) by (apply Nat.eqb_neq; lia).
    rewrite Hn. cbn [negb app].
    replace (length d) with (length (remaining f)) by lia. reflexivity.
Qed.

(** C5.  [read_wav_header] asks the stream for 44 bytes once.  When at
    least 44 bytes remain it returns [ESP_OK], the stream has advanced
    by exactly 44 bytes, and each header field is the little-endian
    integer at its fixed offset of those bytes (channels at 22, sample
    rate at 24, block align at 32, bits per sample at 34, data size at
    40), with no check of the values.  Otherwise it returns [ESP_FAIL],
    and it does so only then; the header object is left as it was. *)
Theorem read_wav_header_fixed_offsets (f : FILE) (header : wav_header_t)
    (st : state U) :
  let d := take 44 (remaining f) in
  read_wav_header f header st =
    (if (44 <=? length (remaining f))%nat
     then (ESP_OK, header_at d, advance f 44,
           st, [EvFread 44 d])
     else (ESP_FAIL, header, advance f (length (remaining f)),
           st, [EvFread 44 d; EvLog LOGE "Failed to read WAV header" []]))
  /\ (let '(r, _, _, _, _) := read_wav_header f header st in
      (r = ESP_FAIL <-> (length (remaining f) < 44)%nat)
      /\ (r = ESP_OK <-> (44 <= length (remaining f))%nat)).
Proof.
  intros d. subst d.
  split; [apply read_wav_header_run |].
  rewrite read_wav_header_run.
  destruct (Nat.leb_spec 44 (length (remaining f))) as [Hge | Hlt].
  - split; split; intros H; try (exfalso; lia); try reflexivity; try discriminate H.
    exact Hge.
  - split; split; intros H; try (exfalso; lia); try reflexivity; try discriminate H.
    exact Hlt.
Qed.

End Parsing.

(** ** Volume state *)

Lemma to_int32_mod (z : Z) : to_int32 z mod 2 ^ 32 = z mod 2 ^ 32.
Proof.
  unfold to_int32, to_signed.
  destruct (z mod 2 ^ 32 <? 2 ^ (32 - 1)).
  - apply Z.mod_mod. lia.
  - rewrite <- Zminus_mod_idemp_r, Z.mod_same, Z.sub_0_r by lia.
    apply Z.mod_mod. lia.
Qed.

(** The wrapped result depends on its argument modulo [2 ^ 32] only. *)
Lemma to_int32_congr (a b : Z) : a mod 2 ^ 32 = b mod 2 ^ 32 -> to_int32 a = to_int32 b.
Proof. intros H. unfold to_int32, to_signed. rewrite H. reflexivity. Qed.

Lemma int_add_neg (c a : Z) : int_add c (int_neg a) = int_sub c a.
Proof.
  unfold int_add, int_sub, int_neg. apply to_int32_congr.
  rewrite Zplus_mod, to_int32_mod, <- Zplus_mod. f_equal; lia.
Qed.

Lemma int_sub_neg (c a : Z) : int_sub c (int_neg a) = int_add c a.
Proof.
  unfold int_add, int_sub, int_neg. apply to_int32_congr.
  rewrite Zminus_mod, to_int32_mod, <- Zminus_mod. f_equal; lia.
Qed.

Lemma clamp_range (v : Z) : 0 <= clamp v <= 100.
Proof. unfold clamp, MIN_VOLUME, MAX_VOLUME. lia. Qed.

Section Volume.

Context {U : Type}.

Lemma set_volume_clamps (v : Z) (st : state U) :
  current_volume (exec (wav_player_set_volume v) st) = clamp v.
Proof.
  unfold exec, wav_player_set_volume, clamp, MIN_VOLUME, MAX_VOLUME.
  cbn [fst snd current_volume].
  destruct (Z.ltb_spec v 0) as [Hlo | Hlo].
  - change (if 0 >? 100 then 100 else 0) with 0. lia.
  - destruct (Z.gtb_spec v 100); lia.
Qed.

Lemma get_after (m : M U unit) (st : state U) :
  eval (bind m (fun _ => wav_player_get_volume)) st = current_volume (exec m st).
Proof.
  unfold eval, exec, bind, wav_player_get_volume, read_current_volume.
  destruct (m st) as [[[] st1] t1]. reflexivity.
Qed.

(** Without overflow of the [int] sum, raising the volume saturates the
    mathematical sum. *)
Lemma increase_volume_clamps (amount : Z) (st : state U) :
  INT_MIN <= current_volume st + amount <= INT_MAX ->
  current_volume (exec (wav_player_increase_volume amount) st)
  = clamp (current_volume st + amount).
Proof.
  intros Hr. unfold wav_player_increase_volume.
  change (exec (fun st0 => wav_player_set_volume (int_add (current_volume st0) amount) st0) st)
    with (exec (wav_player_set_volume (int_add (current_volume st) amount)) st).
  rewrite set_volume_clamps. unfold int_add. rewrite to_int32_id by exact Hr.
  reflexivity.
Qed.

Lemma decrease_volume_clamps (amount : Z) (st : state U) :
  INT_MIN <= current_volume st - amount <= INT_MAX ->
  current_volume (exec (wav_player_decrease_volume amount) st)
  = clamp (current_volume st - amount).
Proof.
  intros Hr. unfold wav_player_decrease_volume.
  change (exec (fun st0 => wav_player_set_volume (int_sub (current_volume st0) amount) st0) st)
    with (exec (wav_player_set_volume (int_sub (current_volume st) amount)) st).
  rewrite set_volume_clamps. unfold int_sub. rewrite to_int32_id by exact Hr.
  reflexivity.
Qed.

(** C9.  In every state and for every amount, [wav_player_increase_volume]
    is [wav_player_set_volume] applied to the [int] sum of the current
    level and the amount, and [wav_player_decrease_volume] is it applied
    to their [int] difference; [wav_player_set_volume] leaves the level
    saturated into [0, 100]; raising by the negation of an amount is
    lowering by the amount, and the other way round; after
    [set_volume(-5)] the level read back is 0 and after
    [set_volume(150)] it is 100. *)
Theorem volume_increase_decrease_compose_with_set (st : state U) (amount : Z) :
  wav_player_increase_volume amount st
    = wav_player_set_volume (int_add (current_volume st) amount) st
  /\ wav_player_decrease_volume amount st
    = wav_player_set_volume (int_sub (current_volume st) amount) st
  /\ (forall v : Z,
        current_volume (exec (wav_player_set_volume v) st) = clamp v
        /\ 0 <= clamp v <= 100)
  /\ wav_player_increase_volume (int_neg amount) st
    = wav_player_decrease_volume amount st
  /\ wav_player_decrease_volume (int_neg amount) st
    = wav_player_increase_volume amount st
  /\ eval (bind (wav_player_set_volume (- 5)) (fun _ => wav_player_get_volume)) st = 0
  /\ eval (bind (wav_player_set_volume 150) (fun _ => wav_player_get_volume)) st = 100.
Proof.
  split; [reflexivity |]. split; [reflexivity |].
  split; [intros v; split; [apply set_volume_clamps | apply clamp_range] |].
  split.
  { unfold wav_player_increase_volume, wav_player_decrease_volume.
    rewrite int_add_neg. reflexivity. }
  split.
  { unfold wav_player_increase_volume, wav_player_decrease_volume.
    rewrite int_sub_neg. reflexivity. }
  split; reflexivity.
Qed.

Lemma volume_op_range (op : volume_op) (st : state U) :
  0 <= current_volume (exec (do_volume_op op) st) <= 100.
Proof.
  destruct op as [v | a | a]; cbn [do_volume_op].
  - rewrite set_volume_clamps. apply clamp_range.
  - unfold wav_player_increase_volume.
    change (exec (fun st0 => wav_player_set_volume (int_add (current_volume st0) a) st0) st)
      with (exec (wav_player_set_volume (int_add (current_volume st) a)) st).
    rewrite set_volume_clamps. apply clamp_range.
  - unfold wav_player_decrease_volume.
    change (exec (fun st0 => wav_player_set_volume (int_sub (current_volume st0) a) st0) st)
      with (exec (wav_player_set_volume (int_sub (current_volume st) a)) st).
    rewrite set_volume_clamps. apply clamp_range.
Qed.

Lemma exec_bind {A B : Type} (m : M U A) (k : A -> M U B) (st : state U) :
  exec (bind m k) st = exec (k (eval m st)) (exec m st).
Proof.
  unfold exec, eval, bind. destruct (m st) as [[a st1] t1]. cbn.
  destruct (k a st1) as [[b st2] t2]. reflexivity.
Qed.

Lemma volume_ops_range (ops : list volume_op) (st : state U) :
  0 <= current_volume st <= 100 ->
  0 <= current_volume (exec (do_volume_ops ops) st) <= 100.
Proof.
  revert st. induction ops as [| op ops IH]; intros st Hst.
  - exact Hst.
  - cbn [do_volume_ops]. rewrite exec_bind. apply IH, volume_op_range.
Qed.

(** C10.  The level starts at 30: [wav_player_get_volume] before any
    mutation returns 30.  That value lies in [0, 100], and after any
    sequence of set, increase and decrease operations, with any
    arguments, the level still lies in [0, 100]. *)
Theorem volume_initial_and_invariant (u : U) (ops : list volume_op) :
  eval wav_player_get_volume (initial_state u) = 30
  /\ 0 <= current_volume (initial_state u) <= 100
  /\ 0 <= current_volume (exec (do_volume_ops ops) (initial_state u)) <= 100.
Proof.
  split; [reflexivity |].
  assert (Hinit : 0 <= current_volume (initial_state u) <= 100) by (cbn; lia).
  split; [exact Hinit |].
  apply volume_ops_range, Hinit.
Qed.

End Volume.

(** ** The sample transform *)

Lemma fold_left_pointwise {A B : Type} (f g : A -> B -> A) (l : list B) (a : A) :
  (forall x y, f x y = g x y) -> fold_left f l a = fold_left g l a.
Proof.
  intros Hfg. revert a. induction l as [| y l IH]; intros a.
  - reflexivity.
  - cbn [fold_left]. rewrite Hfg. apply IH.
Qed.

(** The scaling on a few samples: full volume keeps the sample, a
    fractional product is truncated toward zero for either sign. *)
Example apply_volume_samples :
  apply_volume 1000 100 = 1000
  /\ apply_volume (- 32768) 100 = - 32768
  /\ apply_volume 1000 30 = 300
  /\ apply_volume 7 50 = 3
  /\ apply_volume (- 7) 50 = - 3.
Proof. repeat split; vm_compute; reflexivity. Qed.

Lemma apply_volume_0 (sample : Z) : apply_volume sample 0 = 0.
Proof.
  unfold apply_volume.
  change (Float32.div (Float32.of_int 0) Float32.hundred) with (S754_zero false).
  destruct (Float32.of_int sample) as [s | s | | s m e]; reflexivity.
Qed.

Lemma store_int16_0 (a : list byte) (i : nat) :
  store_int16 a i 0 = <[(2 * i + 1)%nat := x00]> (<[(2 * i)%nat := x00]> a).
Proof. reflexivity. Qed.

Lemma zero_samples (k : nat) (p : list byte) :
  (2 * k <= length p)%nat ->
  fold_left (fun processed i => store_int16 processed i 0) (seq 0 k) p
  = (repeat x00 (2 * k) ++ drop (2 * k) p)%list.
Proof.
  induction k as [| k IH]; intros Hlen.
  - cbn. rewrite drop_0. reflexivity.
  - rewrite seq_S, fold_left_app, IH by lia. cbn [fold_left Nat.add].
    rewrite store_int16_0.
    destruct (lookup_lt_is_Some_2 p (2 * k)%nat ltac:(lia)) as [a Ha].
    destruct (lookup_lt_is_Some_2 p (S (2 * k))%nat ltac:(lia)) as [b Hb].
    rewrite (drop_S p a (2 * k)) by exact Ha.
    rewrite (drop_S p b (S (2 * k))) by exact Hb.
    rewrite !insert_app_r_alt by (rewrite repeat_length; lia).
    rewrite repeat_length.
    replace (2 * k - 2 * k)%nat with 0%nat by lia.
    replace (2 * k + 1 - 2 * k)%nat with 1%nat by lia.
    cbn [list_insert insert].
    replace (2 * S k)%nat with (2 * k + 2)%nat by lia.
    rewrite repeat_app, <- app_assoc. cbn [repeat app].
    replace (2 * k + 2)%nat with (S (S (2 * k))) by lia. reflexivity.
Qed.

(** At volume 0 the 16-bit branch zeroes the [2 * (bytes_read / 2)] bytes
    that make up whole samples and leaves every later byte of
    [processed_buffer] as it was. *)
Lemma process_16_volume_0 (buffer : list byte) (bytes_read : nat) (p : list byte) :
  (bytes_read <= length p)%nat ->
  process_16 0 buffer bytes_read p
  = (repeat x00 (2 * (bytes_read / 2)) ++ drop (2 * (bytes_read / 2)) p)%list.
Proof.
  intros Hlen. unfold process_16.
  assert (Hdiv : (2 * (bytes_read / 2) <= bytes_read)%nat)
    by (apply Nat.Div0.mul_div_le).
  rewrite <- zero_samples by lia.
  apply fold_left_pointwise. intros acc i. rewrite apply_volume_0. reflexivity.
Qed.

(** For a chunk of even length the bytes handed to the sink are all zero. *)
Lemma process_16_volume_0_even (buffer : list byte) (bytes_read : nat) (p : list byte) :
  (bytes_read <= length p)%nat -> Nat.even bytes_read = true ->
  take bytes_read (process_chunk 16 0 buffer bytes_read p) = repeat x00 bytes_read.
Proof.
  intros Hlen Hev. cbn [process_chunk Z.eqb Pos.eqb].
  rewrite process_16_volume_0 by exact Hlen.
  apply Nat.even_spec in Hev. destruct Hev as [k ->].
  rewrite Nat.mul_comm, Nat.div_mul by lia. rewrite (Nat.mul_comm k 2).
  rewrite take_app_length' by (rewrite repeat_length; lia). reflexivity.
Qed.

(** For a chunk of odd length the last byte handed to the sink is the
    byte [processed_buffer] held before the chunk was processed. *)
Lemma process_16_volume_0_odd (buffer : list byte) (bytes_read : nat) (p : list byte) :
  (bytes_read <= length p)%nat -> Nat.odd bytes_read = true ->
  take bytes_read (process_chunk 16 0 buffer bytes_read p) !! (bytes_read - 1)%nat
  = p !! (bytes_read - 1)%nat.
Proof.
  intros Hlen Hodd. cbn [process_chunk Z.eqb Pos.eqb].
  rewrite process_16_volume_0 by exact Hlen.
  apply Nat.odd_spec in Hodd. destruct Hodd as [k ->].
  replace ((2 * k + 1) / 2)%nat with k.
  2:{ apply Nat.div_unique with 1%nat; lia. }
  rewrite lookup_take_lt by lia.
  rewrite lookup_app_r by (rewrite repeat_length; lia).
  rewrite repeat_length, lookup_drop. f_equal. lia.
Qed.

(** The 24-bit branch returns [processed_buffer] as it received it,
    whatever the chunk and the volume. *)
Lemma process_24_unchanged (volume : Z) (buffer : list byte) (bytes_read : nat)
    (p : list byte) :
  process_24 volume buffer bytes_read p = p.
Proof.
  unfold process_24.
  induction (map (fun k => (3 * k)%nat) (seq 0 ((bytes_read + 2) / 3)%nat)) as [| i l IH].
  - reflexivity.
  - cbn [fold_left]. exact IH.
Qed.

(** ** Runs of the player *)

Section Runs.

Context {U : Type}.

Lemma is_valid_wav_header_run (h : wav_header_t) (st : state U) :
  is_valid_wav_header h st = (valid h st, st, calls (is_valid_wav_header h) st)
  /\ forallb is_log (calls (is_valid_wav_header h) st) = true
  /\ (valid h st = true -> calls (is_valid_wav_header h) st = []).
Proof.
  unfold valid, calls, is_valid_wav_header.
  repeat match goal with
         | |- context [if ?c then _ else _] => destruct c
         end;
    cbv [bind ret emit ESP_LOG fst snd app forallb is_log andb];
    repeat split; try reflexivity; intros H; discriminate H.
Qed.

Lemma play_loop_step (fuel : nat) (cb : wav_player_write_cb_t) (bits : Z)
    (fp : FILE) (buf pbuf : list byte) (r0 : Z) (st : state U) :
  play_loop (S fuel) cb bits fp buf pbuf r0 st =
    let chunk := take BUFFER_SIZE (remaining fp) in
    let n := length chunk in
    if (0 <? n)%nat then
      let buffer := (chunk ++ drop n buf)%list in
      let p := process_chunk bits (current_volume st) buffer n pbuf in
      let src := take n p in
      let r := fst (cb src n st) in
      let st1 := snd (cb src n st) in
      if r =? ESP_OK then
        let '(res, st2, evs) := play_loop fuel cb bits (advance fp n) buffer p r st1 in
        (res, st2, EvFread BUFFER_SIZE chunk :: EvWrite src n r :: evs)
      else
        (Some r, st1,
         [EvFread BUFFER_SIZE chunk; EvWrite src n r;
          EvLog LOGE "Write callback failed" []])
    else (Some r0, st, [EvFread BUFFER_SIZE chunk]).
Proof.
  cbn [play_loop].
  cbv beta iota zeta delta [bind fread emit ret read_current_volume call_write_cb ESP_LOG].
  fold (remaining fp). fold (advance fp (length (take BUFFER_SIZE (remaining fp)))).
  destruct (0 <? length (take BUFFER_SIZE (remaining fp)))%nat; cbn [negb]; [| reflexivity].
  destruct (cb _ _ _) as [r st1]. cbn [fst snd].
  destruct (r =? ESP_OK); cbn [negb app]; [| reflexivity].
  destruct (play_loop fuel cb bits _ _ _ r _) as [[res st2] evs].
  reflexivity.
Qed.

(** A sink call among the events of a list splits the list around it. *)
Lemma split_after_prefix (l1 l2 pre post : list event) (w : event) :
  (l1 ++ l2 = pre ++ w :: post)%list ->
  is_write w = true -> forallb (fun e => negb (is_write e)) l1 = true ->
  exists pre', pre = (l1 ++ pre')%list /\ l2 = (pre' ++ w :: post)%list.
Proof.
  revert pre. induction l1 as [| a l1 IH]; intros pre Heq Hw Hl1.
  - exists pre. split; [reflexivity | exact Heq].
  - cbn [forallb] in Hl1. apply andb_prop in Hl1 as [Ha Hl1].
    destruct pre as [| b pre]; cbn [app] in Heq; injection Heq as Hab Heq.
    + subst a. rewrite Hw in Ha. discriminate Ha.
    + destruct (IH pre Heq Hw Hl1) as (pre' & -> & ->).
      exists pre'. subst b. split; reflexivity.
Qed.

Lemma split_before_suffix (l2 suf pre post : list event) (w : event) :
  (l2 ++ suf = pre ++ w :: post)%list ->
  is_write w = true -> forallb (fun e => negb (is_write e)) suf = true ->
  exists post', post = (post' ++ suf)%list /\ l2 = (pre ++ w :: post')%list.
Proof.
  intros Heq Hw Hsuf.
  assert (Hin : forall l, forallb (fun e => negb (is_write e)) suf = true ->
                          suf <> (l ++ w :: post)%list).
  { intros l Hs Habs. rewrite Habs, forallb_app in Hs.
    apply andb_prop in Hs as [_ Hs]. cbn [forallb] in Hs.
    rewrite Hw in Hs. discriminate Hs. }
  revert l2 Heq. induction pre as [| b pre IH]; intros l2 Heq.
  - destruct l2 as [| a l2]; cbn [app] in Heq.
    + exfalso. apply (Hin [] Hsuf). exact Heq.
    + injection Heq as -> <-. exists l2. split; reflexivity.
  - destruct l2 as [| a l2]; cbn [app] in Heq.
    + exfalso. apply (Hin (b :: pre) Hsuf). exact Heq.
    + injection Heq as -> Heq. destruct (IH l2 Heq) as (post' & -> & ->).
      exists post'. split; reflexivity.
Qed.

(** Inside the loop: a failing sink call is the last sink call and the
    last read, every earlier call succeeded, each chunk read so far was
    handed to the sink once, and the loop returns the failing code. *)
Lemma play_loop_halts (fuel : nat) (cb : wav_player_write_cb_t) (bits : Z) :
  forall (fp : FILE) (buf pbuf : list byte) (r0 : Z) (st : state U)
         (pre post : list event) (src : list byte) (size : nat) (r : Z),
    calls (play_loop fuel cb bits fp buf pbuf r0) st = (pre ++ EvWrite src size r :: post)%list ->
    r <> ESP_OK ->
    eval (play_loop fuel cb bits fp buf pbuf r0) st = Some r
    /\ read_sizes post = [] /\ write_sizes post = []
    /\ Forall (fun x => x = ESP_OK) (write_results pre)
    /\ read_sizes pre = (write_sizes pre ++ [size])%list.
Proof.
  induction fuel as [| fuel IH]; intros fp buf pbuf r0 st pre post src size r Hc Hr.
  - cbn in Hc. destruct pre; discriminate Hc.
  - unfold calls, eval in *. rewrite play_loop_step in *. cbv zeta in *.
    set (chunk := take BUFFER_SIZE (remaining fp)) in *.
    set (n := length chunk) in *.
    set (buffer := (chunk ++ drop n buf)%list) in *.
    set (p := process_chunk bits (current_volume st) buffer n pbuf) in *.
    set (r1 := fst (cb (take n p) n st)) in *.
    set (st1 := snd (cb (take n p) n st)) in *.
    destruct (0 <? n)%nat.
    2:{ cbn [snd] in Hc. destruct pre as [| e [| e' pre]]; discriminate Hc. }
    destruct (Z.eqb_spec r1 ESP_OK) as [Hok | Hfail].
    + specialize (IH (advance fp n) buffer p r1 st1).
      unfold calls, eval in IH.
      destruct (play_loop fuel cb bits (advance fp n) buffer p r1 st1)
        as [[res st2] evs].
      cbn [fst snd] in *.
      destruct pre as [| e [| e' pre]]; cbn [app] in Hc.
      * discriminate Hc.
      * injection Hc as _ _ _ Hr1 _. congruence.
      * injection Hc as <- <- Hc.
        destruct (IH pre post src size r Hc Hr) as (Hres & Hrp & Hwp & Hall & Hsz).
        split; [exact Hres |]. split; [exact Hrp |]. split; [exact Hwp |].
        split.
        -- cbn [write_results]. constructor; [exact Hok | exact Hall].
        -- cbn [read_sizes write_sizes app]. rewrite Hsz. reflexivity.
    + cbn [fst snd] in *.
      destruct pre as [| e [| e' pre]]; cbn [app] in Hc.
      * discriminate Hc.
      * injection Hc as <- <- <- <- <-.
        repeat split; try reflexivity. constructor.
      * injection Hc as _ _ Hc. destruct pre as [| e'' [| ? ?]]; discriminate Hc.
Qed.

Lemma play_file_run (E : env) (filepath : string) (cb : wav_player_write_cb_t)
    (st : state U) :
  wav_player_play_file E filepath (Some cb) st =
    match fs E filepath with
    | None =>
        (Some ESP_FAIL, st,
         [EvFopen filepath false;
          EvLog LOGE "Failed to open file %s" [LStr filepath]])
    | Some data =>
        let fp := {| f_data := data; f_pos := 0 |} in
        let d := take 44 data in
        if (44 <=? length data)%nat then
          let h := header_at d in
          if valid h st then
            if malloc_ok E 0 && malloc_ok E 1 then
              let '(res, st', evs) :=
                play_loop (S (length data - 44)) cb (bits_per_sample h) (advance fp 44)
                  (map (heap_garbage E 0) (seq 0 BUFFER_SIZE))
                  (map (heap_garbage E 1) (seq 0 BUFFER_SIZE)) ESP_OK st in
              (res, st',
               [EvFopen filepath true; EvFread 44 d;
                EvMalloc BUFFER_SIZE true; EvMalloc BUFFER_SIZE true]
               ++ evs ++ [EvFree false; EvFree false; EvFclose])%list
            else
              (Some ESP_FAIL, st,
               [EvFopen filepath true; EvFread 44 d;
                EvMalloc BUFFER_SIZE (malloc_ok E 0);
                EvMalloc BUFFER_SIZE (malloc_ok E 1);
                EvLog LOGE "Failed to allocate buffers" [];
                EvFree (negb (malloc_ok E 0)); EvFree (negb (malloc_ok E 1));
                EvFclose])
          else
            (Some ESP_FAIL, st,
             [EvFopen filepath true; EvFread 44 d]
             ++ calls (is_valid_wav_header h) st
             ++ [EvLog LOGE "Invalid WAV header" []; EvFclose])%list
        else
          (Some ESP_FAIL, st,
           [EvFopen filepath true; EvFread 44 d;
            EvLog LOGE "Failed to read WAV header" [];
            EvLog LOGE "Invalid WAV header" []; EvFclose])
    end.
Proof.
  unfold wav_player_play_file, fopen.
  destruct (fs E filepath) as [data |]; [| reflexivity].
  cbv beta iota zeta delta [bind emit ret ESP_LOG fclose].
  rewrite read_wav_header_run.
  change (remaining {| f_data := data; f_pos := 0 |}) with data.
  destruct (44 <=? length data)%nat; [| reflexivity].
  change (negb (ESP_OK =? ESP_OK)) with false. cbv iota.
  destruct (is_valid_wav_header_run (header_at (take 44 data)) st) as (Hrun & _ & Hnil).
  rewrite Hrun.
  destruct (valid (header_at (take 44 data)) st) eqn:Hv; cbn [negb].
  2:{ rewrite app_nil_r. reflexivity. }
  rewrite (Hnil eq_refl).
  unfold malloc, free.
  cbv beta iota zeta delta [bind emit ret ESP_LOG fclose].
  destruct (malloc_ok E 0), (malloc_ok E 1); cbn [andb negb app]; try reflexivity.
  cbn [f_data f_pos advance Nat.add].
  destruct (play_loop _ _ _ _ _ _ _ _) as [[res st2] evs].
  reflexivity.
Qed.

Lemma length_remaining_advance (fp : FILE) (n : nat) :
  length (remaining (advance fp n)) = (length (remaining fp) - n)%nat.
Proof.
  unfold remaining, advance. cbn [f_data f_pos]. rewrite !length_drop. lia.
Qed.

(** With fuel above the number of bytes left, the loop returns: either
    [ESP_OK], or the non-zero code of a sink call it made. *)
Lemma play_loop_returns (fuel : nat) (cb : wav_player_write_cb_t) (bits : Z) :
  forall (fp : FILE) (buf pbuf : list byte) (st : state U),
    (length (remaining fp) < fuel)%nat ->
    exists res : Z,
      eval (play_loop fuel cb bits fp buf pbuf ESP_OK) st = Some res
      /\ (res = ESP_OK
          \/ (res <> ESP_OK
              /\ exists pre src size post,
                   calls (play_loop fuel cb bits fp buf pbuf ESP_OK) st
                   = (pre ++ EvWrite src size res :: post)%list))
      /\ fopen_count (calls (play_loop fuel cb bits fp buf pbuf ESP_OK) st) = 0%nat.
Proof.
  induction fuel as [| fuel IH]; intros fp buf pbuf st Hfuel; [lia |].
  unfold calls, eval in *. rewrite play_loop_step. cbv zeta.
  set (chunk := take BUFFER_SIZE (remaining fp)) in *.
  set (n := length chunk) in *.
  set (buffer := (chunk ++ drop n buf)%list) in *.
  set (p := process_chunk bits (current_volume st) buffer n pbuf) in *.
  set (r1 := fst (cb (take n p) n st)) in *.
  set (st1 := snd (cb (take n p) n st)) in *.
  destruct (Nat.ltb_spec 0 n) as [Hn | Hn].
  2:{ exists ESP_OK. cbn. repeat split. left. reflexivity. }
  destruct (Z.eqb_spec r1 ESP_OK) as [Hok | Hfail].
  - rewrite Hok.
    assert (Hle : (n <= length (remaining fp))%nat)
      by (subst n chunk; rewrite length_take; lia).
    assert (Hlt : (length (remaining (advance fp n)) < fuel)%nat)
      by (rewrite length_remaining_advance; lia).
    destruct (IH (advance fp n) buffer p st1 Hlt) as (res & Hres & Hcase & Hopen).
    destruct (play_loop fuel cb bits (advance fp n) buffer p ESP_OK st1)
      as [[res' st2] evs].
    cbn [fst snd] in *.
    exists res. split; [exact Hres |]. split; [| exact Hopen].
    destruct Hcase as [-> | (Hne & pre & src & size & post & ->)].
    + left. reflexivity.
    + right. split; [exact Hne |].
      exists (EvFread BUFFER_SIZE chunk :: EvWrite (take n p) n ESP_OK :: pre), src, size, post.
      reflexivity.
  - exists r1. cbn [fst snd]. split; [reflexivity |]. split; [| reflexivity].
    right. split; [exact Hfail |].
    exists [EvFread BUFFER_SIZE chunk], (take n p), n,
      [EvLog LOGE "Write callback failed" []].
    reflexivity.
Qed.

Lemma no_write_no_split (l pre post : list event) (w : event) :
  l = (pre ++ w :: post)%list -> is_write w = true ->
  forallb (fun e => negb (is_write e)) l = true -> False.
Proof.
  intros -> Hw Hl. rewrite forallb_app in Hl.
  apply andb_prop in Hl as [_ Hl]. cbn [forallb] in Hl.
  rewrite Hw in Hl. discriminate Hl.
Qed.

Lemma logs_are_not_writes (l : list event) :
  forallb is_log l = true -> forallb (fun e => negb (is_write e)) l = true.
Proof.
  induction l as [| e l IH]; [reflexivity |].
  cbn [forallb]. intros H. apply andb_prop in H as [He Hl].
  rewrite (IH Hl), andb_true_r. destruct e; try discriminate He; reflexivity.
Qed.

Lemma logs_are_not_fopens (l : list event) :
  forallb is_log l = true -> fopen_count l = 0%nat.
Proof.
  unfold fopen_count. induction l as [| e l IH]; [reflexivity |].
  cbn [forallb]. intros H. apply andb_prop in H as [He Hl].
  destruct e; try discriminate He. cbn [List.filter is_fopen]. exact (IH Hl).
Qed.

Lemma no_writes_sizes (l : list event) :
  forallb (fun e => negb (is_write e)) l = true -> write_sizes l = [].
Proof.
  induction l as [| e l IH]; [reflexivity |].
  cbn [forallb]. intros H. apply andb_prop in H as [He Hl].
  destruct e; try discriminate He; cbn [write_sizes]; exact (IH Hl).
Qed.

Lemma read_sizes_app (l1 l2 : list event) :
  read_sizes (l1 ++ l2) = (read_sizes l1 ++ read_sizes l2)%list.
Proof.
  induction l1 as [| e l1 IH]; [reflexivity |].
  destruct e; cbn [app read_sizes]; rewrite IH; reflexivity.
Qed.

Lemma write_sizes_app (l1 l2 : list event) :
  write_sizes (l1 ++ l2) = (write_sizes l1 ++ write_sizes l2)%list.
Proof.
  induction l1 as [| e l1 IH]; [reflexivity |].
  destruct e; cbn [app write_sizes]; rewrite IH; reflexivity.
Qed.

Lemma write_results_app (l1 l2 : list event) :
  write_results (l1 ++ l2) = (write_results l1 ++ write_results l2)%list.
Proof.
  induction l1 as [| e l1 IH]; [reflexivity |].
  destruct e; cbn [app write_results]; rewrite IH; reflexivity.
Qed.

Lemma fopen_count_app (l1 l2 : list event) :
  fopen_count (l1 ++ l2) = (fopen_count l1 + fopen_count l2)%nat.
Proof. unfold fopen_count. rewrite List.filter_app, length_app. reflexivity. Qed.

(** C7.  With a null callback [wav_player_play_file] returns
    [ESP_ERR_INVALID_ARG] at once, for every path and every state: the
    run makes no external call at all (no [fopen], no [fread], no sink
    call) and leaves the state as it was. *)
Theorem play_file_null_callback (E : env) (filepath : string) (st : state U) :
  wav_player_play_file E filepath None st = (Some ESP_ERR_INVALID_ARG, st, []).
Proof. reflexivity. Qed.

(** C6.  If some sink call of a run of [wav_player_play_file] returns a
    code other than [ESP_OK], then that code is the result of the run;
    no [fread] and no sink call follows it; every sink call before it
    returned [ESP_OK]; and the reads up to it are the 44-byte header
    followed by one read per chunk handed to the sink, of the same
    sizes, the last one being the failing chunk.  So the bytes the sink
    accepted are exactly those of the chunks before the failing one. *)
Theorem sink_failure_halts_stream (E : env) (filepath : string)
    (cb : wav_player_write_cb_t) (st : state U)
    (pre post : list event) (src : list byte) (size : nat) (r : Z) :
  calls (wav_player_play_file E filepath (Some cb)) st
    = (pre ++ EvWrite src size r :: post)%list ->
  r <> ESP_OK ->
  eval (wav_player_play_file E filepath (Some cb)) st = Some r
  /\ read_sizes post = [] /\ write_sizes post = []
  /\ Forall (fun x => x = ESP_OK) (write_results pre)
  /\ read_sizes pre = (44%nat :: write_sizes pre ++ [size])%list.
Proof.
  intros Hc Hr. unfold calls, eval in *. rewrite play_file_run in *.
  destruct (fs E filepath) as [data |].
  2:{ exfalso. cbn [snd] in Hc. eapply no_write_no_split; [exact Hc | | ]; reflexivity. }
  cbv zeta in *.
  destruct (Nat.leb_spec 44 (length data)) as [H44 | H44].
  2:{ exfalso. cbn [snd] in Hc. eapply no_write_no_split; [exact Hc | | ]; reflexivity. }
  destruct (valid (header_at (take 44 data)) st).
  2:{ exfalso. cbn [snd] in Hc. eapply no_write_no_split; [exact Hc | reflexivity |].
      rewrite !forallb_app. cbn [forallb negb is_write andb].
      rewrite logs_are_not_writes; [reflexivity |].
      apply (is_valid_wav_header_run (header_at (take 44 data)) st). }
  destruct (malloc_ok E 0 && malloc_ok E 1).
  2:{ exfalso. cbn [snd] in Hc. eapply no_write_no_split; [exact Hc | | ]; reflexivity. }
  pose proof (play_loop_halts (S (length data - 44)) cb
                (bits_per_sample (header_at (take 44 data)))
                (advance {| f_data := data; f_pos := 0 |} 44)
                (map (heap_garbage E 0) (seq 0 BUFFER_SIZE))
                (map (heap_garbage E 1) (seq 0 BUFFER_SIZE)) ESP_OK st) as Hloop.
  unfold calls, eval in Hloop.
  destruct (play_loop _ _ _ _ _ _ _ _) as [[res st2] evs].
  cbn [fst snd] in *.
  apply split_after_prefix in Hc as (pre1 & -> & Hc); [| reflexivity | reflexivity].
  apply split_before_suffix in Hc as (post1 & -> & Hc); [| reflexivity | reflexivity].
  destruct (Hloop pre1 post1 src size r Hc Hr) as (Hres & Hrp & Hwp & Hall & Hsz).
  split; [exact Hres |].
  rewrite !read_sizes_app, !write_sizes_app, write_results_app, Hrp, Hwp, Hsz.
  split; [reflexivity |]. split; [reflexivity |].
  split; [exact Hall |].
  cbn [read_sizes write_sizes app]. rewrite length_take.
  replace (Nat.min 44 (length data)) with 44%nat by lia. reflexivity.
Qed.

Lemma get_info_run (E : env) (filepath : string) (header : wav_header_t)
    (st : state U) :
  wav_player_get_info E filepath header st =
    match fs E filepath with
    | None =>
        (ESP_FAIL, header, st,
         [EvFopen filepath false;
          EvLog LOGE "Failed to open file %s" [LStr filepath]])
    | Some data =>
        if (44 <=? length data)%nat
        then (ESP_OK, header_at (take 44 data), st,
              [EvFopen filepath true; EvFread 44 (take 44 data); EvFclose])
        else (ESP_FAIL, header, st,
              [EvFopen filepath true; EvFread 44 (take 44 data);
               EvLog LOGE "Failed to read WAV header" []; EvFclose])
    end.
Proof.
  unfold wav_player_get_info, fopen.
  destruct (fs E filepath) as [data |]; [| reflexivity].
  cbv beta iota zeta delta [bind emit ret ESP_LOG fclose].
  rewrite read_wav_header_run.
  change (remaining {| f_data := data; f_pos := 0 |}) with data.
  destruct (44 <=? length data)%nat; reflexivity.
Qed.

Lemma play_file_outcome (E : env) (filepath : string)
    (cb : option wav_player_write_cb_t) (st : state U) :
  match setup_failure E filepath cb st with
  | Some k =>
      forall c : Z,
        eval (wav_player_play_file E filepath cb) st = Some (error_code k c)
        /\ write_sizes (calls (wav_player_play_file E filepath cb) st) = []
  | None =>
      exists res : Z,
        eval (wav_player_play_file E filepath cb) st = Some res
        /\ (res = ESP_OK
            \/ (res <> ESP_OK
                /\ exists pre src size post,
                     calls (wav_player_play_file E filepath cb) st
                     = (pre ++ EvWrite src size res :: post)%list))
  end
  /\ (fopen_count (calls (wav_player_play_file E filepath cb) st) <= 1)%nat.
Proof.
  unfold setup_failure. destruct cb as [cb |].
  2:{ split; [intros c; split; reflexivity | cbn; lia]. }
  unfold eval, calls. rewrite play_file_run.
  destruct (fs E filepath) as [data |].
  2:{ split; [intros c; split; reflexivity | cbn; lia]. }
  cbv zeta.
  destruct (Nat.leb_spec 44 (length data)) as [H44 | H44]; cbn [negb].
  2:{ split; [intros c; split; reflexivity | cbn; lia]. }
  destruct (is_valid_wav_header_run (header_at (take 44 data)) st) as (_ & Hlogs & _).
  destruct (valid (header_at (take 44 data)) st); cbn [negb].
  2:{ split.
      - intros c. split; [reflexivity |]. cbn [snd].
        apply no_writes_sizes. rewrite !forallb_app. cbn [forallb negb is_write andb].
        rewrite logs_are_not_writes by exact Hlogs. reflexivity.
      - cbn [snd]. rewrite !fopen_count_app, (logs_are_not_fopens _ Hlogs).
        cbn. lia. }
  destruct (malloc_ok E 0 && malloc_ok E 1); cbn [negb].
  2:{ split; [intros c; split; reflexivity | cbn; lia]. }
  assert (Hfuel : (length (remaining (advance {| f_data := data; f_pos := 0 |} 44))
                   < S (length data - 44))%nat).
  { rewrite length_remaining_advance. unfold remaining. cbn [f_data f_pos].
    rewrite drop_0. lia. }
  destruct (play_loop_returns (S (length data - 44)) cb
              (bits_per_sample (header_at (take 44 data)))
              (advance {| f_data := data; f_pos := 0 |} 44)
              (map (heap_garbage E 0) (seq 0 BUFFER_SIZE))
              (map (heap_garbage E 1) (seq 0 BUFFER_SIZE)) st Hfuel)
    as (res & Hres & Hcase & Hopen).
  unfold eval, calls in Hres, Hcase, Hopen.
  destruct (play_loop _ _ _ _ _ _ _ _) as [[res' st2] evs].
  cbn [fst snd] in *.
  split.
  - exists res. split; [exact Hres |].
    destruct Hcase as [-> | (Hne & pre & src & size & post & ->)].
    + left. reflexivity.
    + right. split; [exact Hne |].
      exists ([EvFopen filepath true; EvFread 44 (take 44 data);
               EvMalloc BUFFER_SIZE true; EvMalloc BUFFER_SIZE true] ++ pre)%list,
             src, size, (post ++ [EvFree false; EvFree false; EvFclose])%list.
      rewrite <- !app_assoc. reflexivity.
  - rewrite !fopen_count_app, Hopen. cbn. lia.
Qed.

End Runs.

(** ** Concrete runs *)

(** C1, at a concrete input: the header of [wav16_header] and a copy of it
    with another [data_size] get the same answer. *)
Lemma is_valid_wav_header_rules_witness :
  valid {| num_channels := 1; sample_rate := 8000; bits_per_sample := 16;
           data_size := 999; block_align := 2 |} (initial_state tt)
  = valid (header_at wav16_header) (initial_state tt).
Proof.
  apply (proj2 (is_valid_wav_header_rules (header_at wav16_header) (initial_state tt))).
  repeat split.
Defined.

(** C2, on the code.  At volume 0, playing a 16-bit file whose data is the
    three bytes [10 20 30], from a heap whose fresh blocks hold [AA],
    hands the sink three bytes of which the last is [AA]: the whole
    sample is zeroed, the odd trailing byte is whatever
    [processed_buffer] held. *)
Theorem volume_0_odd_chunk_last_byte_not_zeroed :
  wav_player_play_file (one_file "a.wav" (wav16_header ++ [x10; x20; x30])) "a.wav"
    (Some counting_sink) {| current_volume := 0; user_data := 0%nat |}
  = (Some ESP_OK, {| current_volume := 0; user_data := 3%nat |},
     [EvFopen "a.wav" true; EvFread 44 wav16_header;
      EvMalloc 1024 true; EvMalloc 1024 true;
      EvFread 1024 [x10; x20; x30];
      EvWrite [x00; x00; xaa] 3 ESP_OK;
      EvFread 1024 [];
      EvFree false; EvFree false; EvFclose]).
Proof. vm_compute. reflexivity. Qed.

(** C3, on the code.  At volume 100, playing a 24-bit file whose data is
    the one sample [01 00 80], from a heap whose fresh blocks hold [AA],
    hands the sink the three bytes [AA AA AA]: the volume-adjusted value
    of the sample, [-32768], is computed but reaches no byte of the buffer
    the sink receives. *)
Theorem play_24bit_delivers_unprocessed_buffer :
  wav_player_play_file (one_file "a.wav" (wav24_header ++ [x01; x00; x80])) "a.wav"
    (Some counting_sink) {| current_volume := 100; user_data := 0%nat |}
  = (Some ESP_OK, {| current_volume := 100; user_data := 3%nat |},
     [EvFopen "a.wav" true; EvFread 44 wav24_header;
      EvMalloc 1024 true; EvMalloc 1024 true;
      EvFread 1024 [x01; x00; x80];
      EvWrite [xaa; xaa; xaa] 3 ESP_OK;
      EvFread 1024 [];
      EvFree false; EvFree false; EvFclose])
  /\ apply_volume (convert_24_to_16 x01 x00 x80) 100 = - 32768.
Proof. split; vm_compute; reflexivity. Qed.

(** C6, at a concrete input: a 16-bit file with 1030 bytes of data, played
    to a sink that accepts one chunk and then fails with [ESP_FAIL]. *)
Lemma sink_failure_halts_stream_witness :
  eval (wav_player_play_file (one_file "a.wav" (wav16_header ++ repeat x00 1030)) "a.wav"
          (Some (failing_sink ESP_FAIL)))
       {| current_volume := 30; user_data := 1%nat |}
  = Some ESP_FAIL
  /\ read_sizes [EvLog LOGE "Write callback failed" []; EvFree false; EvFree false; EvFclose] = []
  /\ write_sizes [EvLog LOGE "Write callback failed" []; EvFree false; EvFree false; EvFclose] = []
  /\ Forall (fun x => x = ESP_OK)
       (write_results
          [EvFopen "a.wav" true; EvFread 44 wav16_header;
           EvMalloc 1024 true; EvMalloc 1024 true;
           EvFread 1024 (repeat x00 1024);
           EvWrite (repeat x00 1024) 1024 ESP_OK;
           EvFread 1024 (repeat x00 6)])
  /\ read_sizes
       [EvFopen "a.wav" true; EvFread 44 wav16_header;
        EvMalloc 1024 true; EvMalloc 1024 true;
        EvFread 1024 (repeat x00 1024);
        EvWrite (repeat x00 1024) 1024 ESP_OK;
        EvFread 1024 (repeat x00 6)]
     = (44%nat :: write_sizes
          [EvFopen "a.wav" true; EvFread 44 wav16_header;
           EvMalloc 1024 true; EvMalloc 1024 true;
           EvFread 1024 (repeat x00 1024);
           EvWrite (repeat x00 1024) 1024 ESP_OK;
           EvFread 1024 (repeat x00 6)] ++ [6%nat])%list.
Proof.
  apply (sink_failure_halts_stream
           (one_file "a.wav" (wav16_header ++ repeat x00 1030)) "a.wav"
           (failing_sink ESP_FAIL) {| current_volume := 30; user_data := 1%nat |}
           [EvFopen "a.wav" true; EvFread 44 wav16_header;
            EvMalloc 1024 true; EvMalloc 1024 true;
            EvFread 1024 (repeat x00 1024);
            EvWrite (repeat x00 1024) 1024 ESP_OK;
            EvFread 1024 (repeat x00 6)]
           [EvLog LOGE "Write callback failed" []; EvFree false; EvFree false; EvFclose]
           (repeat x00 6) 6 ESP_FAIL).
  - vm_compute. reflexivity.
  - unfold ESP_FAIL, ESP_OK. lia.
Defined.

(** C8 as stated fails: a run that cannot open its source and a run whose
    source is too short for a header are stopped by different causes and
    return the same value. *)
Lemma open_and_format_errors_share_a_code :
  setup_failure (one_file "a.wav" wav16_header) "b.wav"
    (Some counting_sink) (initial_state 0%nat) = Some OpenError
  /\ setup_failure (one_file "a.wav" (take 10 wav16_header)) "a.wav"
       (Some counting_sink) (initial_state 0%nat) = Some FormatError
  /\ OpenError <> FormatError
  /\ eval (wav_player_play_file (one_file "a.wav" wav16_header) "b.wav"
             (Some counting_sink)) (initial_state 0%nat)
     = eval (wav_player_play_file (one_file "a.wav" (take 10 wav16_header)) "a.wav"
               (Some counting_sink)) (initial_state 0%nat).
Proof.
  split; [vm_compute; reflexivity |].
  split; [vm_compute; reflexivity |].
  split; [discriminate |].
  vm_compute. reflexivity.
Qed.

(** * Further properties of the unit *)

(** ** Samples *)

(** X1.  [convert_24_to_16] keeps the two high bytes of the sample and
    drops the low one without rounding: the result is the signed 16-bit
    value of bytes 1 and 2, whatever byte 0 is. *)
Theorem convert_24_to_16_drops_low_byte (s0 s1 s2 : byte) :
  convert_24_to_16 s0 s1 s2 = to_int16 (le_bytes [s1; s2])
  /\ (forall s0' : byte, convert_24_to_16 s0' s1 s2 = convert_24_to_16 s0 s1 s2).
Proof.
  assert (Hval : forall b : byte,
             convert_24_to_16 b s1 s2 = to_int16 (le_bytes [s1; s2])).
  { intros b.
    pose proof (le24_range b s1 s2) as Hv.
    rewrite convert_24_to_16_shift, sign_extend_24_value by exact Hv.
    rewrite Z.shiftr_div_pow2 by lia.
    pose proof (testbit_23 _ Hv) as Hb.
    pose proof (u8_range b) as H0. pose proof (u8_range s1) as H1.
    pose proof (u8_range s2) as H2.
    unfold le24 in *. cbn [le_bytes fold_right].
    unfold to_int16, to_signed.
    change (2 ^ 23) with 8388608 in *. change (2 ^ 24) with 16777216 in *.
    change (2 ^ 16) with 65536 in *. change (2 ^ 8) with 256 in *.
    change (2 ^ (16 - 1)) with 32768.
    rewrite (Z.mod_small (u8 s1 + 256 * (u8 s2 + 256 * 0))) by lia.
    destruct (Z.testbit (u8 b + 256 * u8 s1 + 65536 * u8 s2) 23); symmetry in Hb;
      [apply Z.leb_le in Hb | apply Z.leb_gt in Hb];
      destruct (Z.ltb_spec (u8 s1 + 256 * (u8 s2 + 256 * 0)) 32768);
      Z.div_mod_to_equations; lia. }
  split; [apply Hval |]. intros s0'. rewrite !Hval. reflexivity.
Qed.

Lemma apply_volume_zero_sample (volume : Z) : apply_volume 0 volume = 0.
Proof.
  unfold apply_volume.
  change (Float32.of_int 0) with (S754_zero false).
  destruct (Float32.div (Float32.of_int volume) Float32.hundred) as [s | s | | s m e];
    reflexivity.
Qed.

(** X2.  Silence stays silence: a zero sample is scaled to zero at every
    volume, and every sample is scaled to zero at volume 0. *)
Theorem apply_volume_silence (sample volume : Z) :
  apply_volume 0 volume = 0 /\ apply_volume sample 0 = 0.
Proof.
  split; [apply apply_volume_zero_sample | apply apply_volume_0].
Qed.

Lemma binary_round_aux_negb (sx : bool) (mx ex : Z) (lx : location) :
  binary_round_aux Float32.prec Float32.emax (negb sx) mx ex lx
  = SFopp (binary_round_aux Float32.prec Float32.emax sx mx ex lx).
Proof.
  unfold binary_round_aux.
  destruct (shr_fexp Float32.prec Float32.emax mx ex lx) as [mrs' e'].
  destruct (shr_fexp Float32.prec Float32.emax
              (round_nearest_even (shr_m mrs') (loc_of_shr_record mrs')) e' loc_Exact)
    as [mrs'' e''].
  destruct (shr_m mrs'') as [| m | m]; try reflexivity.
  destruct (e'' <=? Float32.emax - Float32.prec); reflexivity.
Qed.

Lemma binary_round_true (m : positive) (e : Z) :
  binary_round Float32.prec Float32.emax true m e
  = SFopp (binary_round Float32.prec Float32.emax false m e).
Proof.
  unfold binary_round.
  destruct (shl_align m e _) as [mz ez].
  apply (binary_round_aux_negb false).
Qed.

Lemma SFopp_involutive (x : spec_float) : SFopp (SFopp x) = x.
Proof. destruct x as [s | s | | s m e]; cbn [SFopp]; rewrite ?negb_involutive; reflexivity. Qed.

Lemma of_int_opp (z : Z) :
  z <> 0 -> Float32.of_int (- z) = SFopp (Float32.of_int z).
Proof.
  intros Hz. destruct z as [| p | p]; [congruence | |].
  - change (- Z.pos p) with (Z.neg p).
    unfold Float32.of_int, binary_normalize. apply binary_round_true.
  - change (- Z.neg p) with (Z.pos p).
    unfold Float32.of_int, binary_normalize.
    rewrite binary_round_true, SFopp_involutive. reflexivity.
Qed.

Lemma mul_opp (x y : spec_float) :
  Float32.mul (SFopp x) y = SFopp (Float32.mul x y).
Proof.
  unfold Float32.mul.
  destruct x as [sx | sx | | sx mx ex], y as [sy | sy | | sy my ey];
    cbn [SFopp SFmul]; try reflexivity;
    try (destruct sx, sy; reflexivity).
  replace (xorb (negb sx) sy) with (negb (xorb sx sy)) by (destruct sx, sy; reflexivity).
  apply binary_round_aux_negb.
Qed.

Lemma trunc_opp (x : spec_float) : Float32.trunc (SFopp x) = - Float32.trunc x.
Proof.
  destruct x as [s | s | | s m e]; cbn [SFopp Float32.trunc]; try reflexivity.
  destruct s; cbn [negb]; lia.
Qed.

Lemma to_int16_opp (t : Z) :
  to_int16 t <> - 32768 -> to_int16 (- t) = - to_int16 t.
Proof.
  unfold to_int16, to_signed.
  change (2 ^ 16) with 65536. change (2 ^ (16 - 1)) with 32768.
  intros Ht.
  destruct (Z.ltb_spec (t mod 65536) 32768);
    destruct (Z.ltb_spec (- t mod 65536) 32768);
    Z.div_mod_to_equations; lia.
Qed.

Lemma apply_volume_neg (sample volume : Z) :
  apply_volume sample volume <> - 32768 ->
  apply_volume (- sample) volume = - apply_volume sample volume.
Proof.
  intros Hne.
  destruct (Z.eq_dec sample 0) as [-> | Hnz].
  - cbn [Z.opp]. rewrite !apply_volume_zero_sample. reflexivity.
  - unfold apply_volume in *.
    rewrite of_int_opp, mul_opp, trunc_opp by exact Hnz.
    apply to_int16_opp. exact Hne.
Qed.

(** X3.  Scaling treats the two signs alike.  For a sample from -32767
    to 32767, so that it and its opposite are both values of [int16_t],
    and a volume from 0 to 100: unless the scaled sample is [-32768], the
    opposite sample is scaled to the opposite value (the fractional part
    is cut toward zero on both sides). *)
Theorem apply_volume_opp (sample volume : Z) :
  - 32767 <= sample <= 32767 ->
  0 <= volume <= 100 ->
  apply_volume sample volume <> - 32768 ->
  apply_volume (- sample) volume = - apply_volume sample volume.
Proof. intros _ _. apply apply_volume_neg. Qed.

Lemma apply_volume_opp_witness :
  apply_volume (- 1000) 30 = - apply_volume 1000 30.
Proof.
  apply (apply_volume_opp 1000 30).
  - lia.
  - lia.
  - vm_compute. lia.
Defined.

Lemma all_from_spec (n : nat) (p : Z -> bool) :
  forall lo : Z, all_from n p lo = true ->
  forall z : Z, lo <= z < lo + Z.of_nat n -> p z = true.
Proof.
  induction n as [| n IH]; intros lo Hall z Hz; [lia |].
  cbn [all_from] in Hall. apply andb_prop in Hall as [Hlo Hrest].
  destruct (Z.eq_dec z lo) as [-> | Hne]; [exact Hlo |].
  apply (IH (lo + 1) Hrest). lia.
Qed.

(** Every non-negative [int16_t] sample, checked one by one. *)
Lemma apply_volume_100_nonneg :
  all_from (Z.to_nat 32768) (fun s => apply_volume s 100 =? s) 0 = true.
Proof. vm_compute. reflexivity. Qed.

Lemma apply_volume_100_id (sample : Z) :
  - 32768 <= sample <= 32767 -> apply_volume sample 100 = sample.
Proof.
  intros Hs.
  assert (Hpos : forall z, 0 <= z <= 32767 -> apply_volume z 100 = z).
  { intros z Hz. apply Z.eqb_eq.
    apply (all_from_spec _ _ 0 apply_volume_100_nonneg z).
    rewrite Z2Nat.id; lia. }
  destruct (Z_le_gt_dec 0 sample) as [Hnn | Hneg]; [apply Hpos; lia |].
  destruct (Z.eq_dec sample (- 32768)) as [-> | Hmin]; [vm_compute; reflexivity |].
  replace sample with (- - sample) at 1 by lia.
  rewrite apply_volume_neg; rewrite Hpos by lia; lia.
Qed.

(** X4.  Full volume is the identity: every [int16_t] sample is scaled to
    itself at volume 100. *)
Theorem apply_volume_100_identity (sample : Z) :
  - 32768 <= sample <= 32767 -> apply_volume sample 100 = sample.
Proof. apply apply_volume_100_id. Qed.

Lemma apply_volume_100_identity_witness : apply_volume (- 12345) 100 = - 12345.
Proof.
  apply (apply_volume_100_identity (- 12345)). lia.
Defined.

(** ** The 16-bit transform *)

Lemma to_int16_range (z : Z) : - 32768 <= to_int16 z <= 32767.
Proof.
  unfold to_int16, to_signed.
  change (2 ^ 16) with 65536. change (2 ^ (16 - 1)) with 32768.
  destruct (Z.ltb_spec (z mod 65536) 32768); Z.div_mod_to_equations; lia.
Qed.

Lemma to_int16_mod (z : Z) : to_int16 (z mod 65536) = to_int16 z.
Proof.
  unfold to_int16, to_signed. change (2 ^ 16) with 65536.
  rewrite Z.mod_mod by lia. reflexivity.
Qed.

Lemma apply_volume_range (sample volume : Z) :
  - 32768 <= apply_volume sample volume <= 32767.
Proof. unfold apply_volume. apply to_int16_range. Qed.

Lemma u8_inj (a b : byte) : u8 a = u8 b -> a = b.
Proof.
  unfold u8. intros H. apply N2Z.inj in H.
  pose proof (Byte.of_to_N a) as Ha. pose proof (Byte.of_to_N b) as Hb.
  rewrite H in Ha. congruence.
Qed.

(** The two bytes [store_int16] writes hold the value modulo [2 ^ 16]. *)
Lemma le16_bytes_value (v : Z) :
  Z.lor (u8 (byte_of_Z v)) (Z.shiftl (u8 (byte_of_Z (Z.shiftr v 8))) 8) = v mod 65536.
Proof.
  rewrite !u8_byte_of_Z, Z.shiftr_div_pow2 by lia.
  rewrite lor_shiftl_low by (try lia; apply Z.mod_pos_bound; lia).
  change (2 ^ 8) with 256. Z.div_mod_to_equations. lia.
Qed.

(** The bytes written for a sample read from two bytes are those bytes. *)
Lemma le16_bytes_load (a b : byte) :
  le16_bytes (to_int16 (Z.lor (u8 a) (Z.shiftl (u8 b) 8))) = [a; b].
Proof.
  pose proof (u8_range a) as Ha. pose proof (u8_range b) as Hb.
  rewrite lor_shiftl_low by lia. change (2 ^ 8) with 256.
  unfold le16_bytes, to_int16, to_signed.
  change (2 ^ 16) with 65536. change (2 ^ (16 - 1)) with 32768.
  rewrite (Z.mod_small (u8 a + u8 b * 256)) by lia.
  f_equal; [| f_equal]; apply u8_inj; rewrite u8_byte_of_Z;
    rewrite ?Z.shiftr_div_pow2 by lia; change (2 ^ 8) with 256;
    destruct (Z.ltb_spec (u8 a + u8 b * 256) 32768);
    Z.div_mod_to_equations; lia.
Qed.

Lemma length_samples (f : nat -> Z) (k : nat) :
  length (flat_map (fun i => le16_bytes (f i)) (seq 0 k)) = (2 * k)%nat.
Proof.
  induction k as [| k IH]; [reflexivity |].
  rewrite seq_S, flat_map_app, length_app, IH. cbn. lia.
Qed.

(** What the loop of the 16-bit branch leaves in [processed_buffer]: the
    bytes of the [k] samples it stored, then the bytes it did not reach. *)
Lemma store_samples (f : nat -> Z) (k : nat) (p : list byte) :
  (2 * k <= length p)%nat ->
  fold_left (fun processed i => store_int16 processed i (f i)) (seq 0 k) p
  = (flat_map (fun i => le16_bytes (f i)) (seq 0 k) ++ drop (2 * k) p)%list.
Proof.
  induction k as [| k IH]; intros Hlen.
  - cbn. rewrite drop_0. reflexivity.
  - rewrite seq_S, fold_left_app, IH by lia. cbn [fold_left Nat.add].
    unfold store_int16.
    destruct (lookup_lt_is_Some_2 p (2 * k)%nat ltac:(lia)) as [a Ha].
    destruct (lookup_lt_is_Some_2 p (S (2 * k))%nat ltac:(lia)) as [b Hb].
    rewrite (drop_S p a (2 * k)) by exact Ha.
    rewrite (drop_S p b (S (2 * k))) by exact Hb.
    rewrite !insert_app_r_alt by (rewrite length_samples; lia).
    rewrite length_samples.
    replace (2 * k - 2 * k)%nat with 0%nat by lia.
    replace (2 * k + 1 - 2 * k)%nat with 1%nat by lia.
    cbn [list_insert insert].
    rewrite flat_map_app, <- app_assoc. cbn [flat_map app le16_bytes].
    replace (2 * S k)%nat with (S (S (2 * k))) by lia. reflexivity.
Qed.

Lemma process_16_bytes (volume : Z) (buffer : list byte) (bytes_read : nat)
    (p : list byte) :
  (bytes_read <= length p)%nat ->
  process_16 volume buffer bytes_read p
  = (flat_map (fun i => le16_bytes (apply_volume (load_int16 buffer i) volume))
       (seq 0 (bytes_read / 2))
     ++ drop (2 * (bytes_read / 2)) p)%list.
Proof.
  intros Hlen. unfold process_16.
  assert (Hdiv : (2 * (bytes_read / 2) <= bytes_read)%nat)
    by (apply Nat.Div0.mul_div_le).
  apply (store_samples (fun i => apply_volume (load_int16 buffer i) volume)). lia.
Qed.

Lemma nth_samples (f : nat -> Z) (k i : nat) (rest : list byte) :
  (i < k)%nat ->
  nth (2 * i) (flat_map (fun j => le16_bytes (f j)) (seq 0 k) ++ rest) x00
    = byte_of_Z (f i)
  /\ nth (2 * i + 1) (flat_map (fun j => le16_bytes (f j)) (seq 0 k) ++ rest) x00
    = byte_of_Z (Z.shiftr (f i) 8).
Proof.
  revert rest. induction k as [| k IH]; intros rest Hi; [lia |].
  rewrite seq_S, flat_map_app, <- app_assoc. cbn [Nat.add flat_map app le16_bytes].
  destruct (Nat.eq_dec i k) as [-> | Hne].
  - rewrite !app_nth2 by (rewrite length_samples; lia).
    rewrite length_samples.
    replace (2 * k - 2 * k)%nat with 0%nat by lia.
    replace (2 * k + 1 - 2 * k)%nat with 1%nat by lia.
    split; reflexivity.
  - apply IH. lia.
Qed.

(** X5.  The 16-bit branch scales every whole sample of the chunk: read
    back as [int16_t], sample [i] of [processed_buffer] is [apply_volume]
    of sample [i] of the input, for each of the [bytes_read / 2] samples;
    the buffer keeps its length and every byte from offset
    [2 * (bytes_read / 2)] on is left as it was. *)
Theorem process_16_scales_every_sample (volume : Z) (buffer : list byte)
    (bytes_read : nat) (p : list byte) :
  (bytes_read <= length p)%nat ->
  length (process_chunk 16 volume buffer bytes_read p) = length p
  /\ (forall i : nat, (i < bytes_read / 2)%nat ->
        load_int16 (process_chunk 16 volume buffer bytes_read p) i
        = apply_volume (load_int16 buffer i) volume)
  /\ (forall j : nat, (2 * (bytes_read / 2) <= j)%nat ->
        process_chunk 16 volume buffer bytes_read p !! j = p !! j).
Proof.
  intros Hlen. cbn [process_chunk Z.eqb Pos.eqb].
  rewrite process_16_bytes by exact Hlen.
  assert (Hdiv : (2 * (bytes_read / 2) <= bytes_read)%nat)
    by (apply Nat.Div0.mul_div_le).
  split; [| split].
  - rewrite length_app, length_samples, length_drop. lia.
  - intros i Hi. unfold load_int16 at 1. unfold idx.
    destruct (nth_samples (fun j => apply_volume (load_int16 buffer j) volume)
                (bytes_read / 2) i (drop (2 * (bytes_read / 2)) p) Hi) as [H0 H1].
    rewrite H0, H1, le16_bytes_value, to_int16_mod.
    apply to_int16_id, apply_volume_range.
  - intros j Hj.
    rewrite lookup_app_r by (rewrite length_samples; lia).
    rewrite length_samples, lookup_drop. f_equal. lia.
Qed.

Lemma process_16_scales_every_sample_witness :
  length (process_chunk 16 30 [x10; x20; x30] 3 [xaa; xaa; xaa; xaa]) = 4%nat
  /\ (forall i : nat, (i < 3 / 2)%nat ->
        load_int16 (process_chunk 16 30 [x10; x20; x30] 3 [xaa; xaa; xaa; xaa]) i
        = apply_volume (load_int16 [x10; x20; x30] i) 30)
  /\ (forall j : nat, (2 * (3 / 2) <= j)%nat ->
        process_chunk 16 30 [x10; x20; x30] 3 [xaa; xaa; xaa; xaa] !! j
        = [xaa; xaa; xaa; xaa] !! j).
Proof.
  apply (process_16_scales_every_sample 30 [x10; x20; x30] 3 [xaa; xaa; xaa; xaa]).
  simpl. lia.
Defined.

Lemma samples_of_bytes (k : nat) (l : list byte) :
  (2 * k <= length l)%nat ->
  flat_map (fun i => le16_bytes (load_int16 l i)) (seq 0 k) = take (2 * k) l.
Proof.
  induction k as [| k IH]; intros Hlen; [reflexivity |].
  rewrite seq_S, flat_map_app, IH by lia. cbn [Nat.add flat_map app].
  destruct (lookup_lt_is_Some_2 l (2 * k)%nat ltac:(lia)) as [a Ha].
  destruct (lookup_lt_is_Some_2 l (S (2 * k))%nat ltac:(lia)) as [b Hb].
  unfold load_int16, idx.
  replace (2 * k + 1)%nat with (S (2 * k)) by lia.
  rewrite (nth_lookup_Some _ _ x00 _ Ha), (nth_lookup_Some _ _ x00 _ Hb).
  rewrite le16_bytes_load.
  replace (2 * S k)%nat with (S (S (2 * k))) by lia.
  rewrite (take_S_r l (S (2 * k)) b) by exact Hb.
  rewrite (take_S_r l (2 * k) a) by exact Ha.
  rewrite <- app_assoc. reflexivity.
Qed.

(** X6.  At volume 100 the 16-bit branch passes a chunk of even length
    through unchanged: the bytes handed to the sink are the bytes read. *)
Theorem process_16_full_volume_passes_through (chunk rest p : list byte) :
  Nat.even (length chunk) = true -> (length chunk <= length p)%nat ->
  take (length chunk)
    (process_chunk 16 100 (chunk ++ rest) (length chunk) p) = chunk.
Proof.
  intros Hev Hlen. cbn [process_chunk Z.eqb Pos.eqb].
  rewrite process_16_bytes by exact Hlen.
  apply Nat.even_spec in Hev. destruct Hev as [k Hk].
  assert (Hhalf : (length chunk / 2 = k)%nat).
  { rewrite Hk, Nat.mul_comm. apply Nat.div_mul. lia. }
  rewrite Hhalf.
  assert (Hid : forall i,
             le16_bytes (apply_volume (load_int16 (chunk ++ rest) i) 100)
             = le16_bytes (load_int16 (chunk ++ rest) i)).
  { intros i. rewrite apply_volume_100_id; [reflexivity |].
    unfold load_int16. apply to_int16_range. }
  rewrite (flat_map_ext _ _ Hid).
  rewrite samples_of_bytes by (rewrite length_app; lia).
  rewrite <- Hk.
  rewrite take_app_length' by (rewrite length_take, length_app; lia).
  apply take_app_length.
Qed.

Lemma process_16_full_volume_passes_through_witness :
  take (length [x10; x20; x30; x40])
    (process_chunk 16 100 ([x10; x20; x30; x40] ++ [xbb]) (length [x10; x20; x30; x40])
       [xaa; xaa; xaa; xaa; xaa])
  = [x10; x20; x30; x40].
Proof.
  apply (process_16_full_volume_passes_through [x10; x20; x30; x40] [xbb]
           [xaa; xaa; xaa; xaa; xaa]).
  - reflexivity.
  - simpl. lia.
Defined.

(** ** Header parsing and validation *)

Section MoreParsing.

Context {U : Type}.

Lemma idx_take (r : list byte) (i : nat) :
  (i < 44)%nat -> idx (take 44 r) i = idx r i.
Proof.
  intros Hi. unfold idx. f_equal.
  rewrite !nth_lookup, lookup_take_lt by exact Hi. reflexivity.
Qed.

Lemma header_at_idx (r : list byte) :
  (44 <= length r)%nat ->
  header_at (take 44 r) =
  {| num_channels := to_uint16 (Z.lor (idx r 22) (Z.shiftl (idx r 23) 8));
     sample_rate :=
       to_uint32 (to_int32
         (Z.lor (Z.lor (Z.lor (idx r 24) (Z.shiftl (idx r 25) 8))
                       (Z.shiftl (idx r 26) 16))
                (Z.shiftl (idx r 27) 24)));
     bits_per_sample := to_uint16 (Z.lor (idx r 34) (Z.shiftl (idx r 35) 8));
     data_size :=
       to_uint32 (to_int32
         (Z.lor (Z.lor (Z.lor (idx r 40) (Z.shiftl (idx r 41) 8))
                       (Z.shiftl (idx r 42) 16))
                (Z.shiftl (idx r 43) 24)));
     block_align := to_uint16 (Z.lor (idx r 32) (Z.shiftl (idx r 33) 8)) |}.
Proof.
  intros Hlen.
  assert (H44 : length (take 44 r) = 44%nat) by (rewrite length_take; lia).
  rewrite <- (parse_fields (take 44 r) H44).
  rewrite !idx_take by lia. reflexivity.
Qed.

Lemma read_wav_header_ok (f : FILE) (header : wav_header_t) (st : state U) :
  (44 <= length (remaining f))%nat ->
  eval (read_wav_header f header) st
  = (ESP_OK, header_at (take 44 (remaining f)), advance f 44).
Proof.
  intros Hlen. unfold eval. rewrite read_wav_header_run.
  destruct (Nat.leb_spec 44 (length (remaining f))); [reflexivity | lia].
Qed.

(** X7.  [read_wav_header] looks at fourteen bytes only, those at offsets
    22 to 27, 32 to 35 and 40 to 43: two streams with at least 44 bytes
    left that agree at these offsets are both parsed with [ESP_OK] to the
    same header, whatever their other bytes are (the [RIFF], [WAVE],
    [fmt ] and [data] tags among them). *)
Theorem read_wav_header_reads_fixed_bytes_only (f f' : FILE)
    (header header' : wav_header_t) (st st' : state U) :
  (44 <= length (remaining f))%nat -> (44 <= length (remaining f'))%nat ->
  Forall (fun i => nth i (remaining f) x00 = nth i (remaining f') x00) header_offsets ->
  parsed_code (eval (read_wav_header f header) st) = ESP_OK
  /\ parsed_code (eval (read_wav_header f' header') st') = ESP_OK
  /\ parsed_header (eval (read_wav_header f header) st)
     = parsed_header (eval (read_wav_header f' header') st').
Proof.
  intros Hlen Hlen' Hagree.
  rewrite !read_wav_header_ok by assumption.
  split; [reflexivity |]. split; [reflexivity |].
  unfold parsed_header. cbn [fst snd].
  rewrite !header_at_idx by assumption.
  unfold header_offsets in Hagree.
  repeat match goal with
         | H : Forall _ (_ :: _) |- _ =>
             apply Forall_cons_1 in H; destruct H as [? H]
         end.
  unfold idx. congruence.
Qed.

Lemma is_valid_wav_header_cases (h : wav_header_t) (st : state U) :
  is_valid_wav_header h st = (true, st, [])
  \/ exists fmt args, is_valid_wav_header h st = (false, st, [EvLog LOGE fmt args]).
Proof.
  unfold is_valid_wav_header.
  repeat match goal with
         | |- context [if ?c then _ else _] => destruct c
         end;
    cbv [bind ret emit ESP_LOG fst snd app];
    first [left; reflexivity | right; eexists; eexists; reflexivity].
Qed.

(** X9.  [is_valid_wav_header] never changes the state; it logs nothing
    when it accepts a header and exactly one error line when it rejects
    one, however many rules the header breaks. *)
Theorem is_valid_wav_header_reports_once (h : wav_header_t) (st : state U) :
  exec (is_valid_wav_header h) st = st
  /\ (if valid h st
      then calls (is_valid_wav_header h) st = []
      else exists fmt args, calls (is_valid_wav_header h) st = [EvLog LOGE fmt args]).
Proof.
  unfold valid, exec, calls.
  destruct (is_valid_wav_header_cases h st) as [-> | (fmt & args & ->)]; cbn [fst snd].
  - split; reflexivity.
  - split; [reflexivity |]. exists fmt, args. reflexivity.
Qed.

End MoreParsing.

Lemma read_wav_header_reads_fixed_bytes_only_witness :
  parsed_code (eval (read_wav_header {| f_data := wav16_header; f_pos := 0 |}
                       uninitialised_header) (initial_state tt)) = ESP_OK
  /\ parsed_code (eval (read_wav_header
                         {| f_data := repeat x00 22 ++ drop 22 wav16_header; f_pos := 0 |}
                         uninitialised_header) (initial_state tt)) = ESP_OK
  /\ parsed_header (eval (read_wav_header {| f_data := wav16_header; f_pos := 0 |}
                            uninitialised_header) (initial_state tt))
     = parsed_header (eval (read_wav_header
                              {| f_data := repeat x00 22 ++ drop 22 wav16_header; f_pos := 0 |}
                              uninitialised_header) (initial_state tt)).
Proof.
  apply (read_wav_header_reads_fixed_bytes_only
           {| f_data := wav16_header; f_pos := 0 |}
           {| f_data := repeat x00 22 ++ drop 22 wav16_header; f_pos := 0 |}
           uninitialised_header uninitialised_header (initial_state tt) (initial_state tt)).
  - simpl. lia.
  - simpl. lia.
  - vm_compute. repeat constructor.
Defined.

(** ** Runs of the player, continued *)

Section MoreRuns.

Context {U : Type}.

Lemma count_events_app (q : event -> bool) (l1 l2 : list event) :
  count_events q (l1 ++ l2) = (count_events q l1 + count_events q l2)%nat.
Proof. unfold count_events. rewrite List.filter_app, length_app. reflexivity. Qed.

Lemma count_events_none (q r : event -> bool) (l : list event) :
  forallb r l = true -> (forall e, r e = true -> q e = false) ->
  count_events q l = 0%nat.
Proof.
  intros Hl Hrq. unfold count_events.
  induction l as [| e l IH]; [reflexivity |].
  cbn [forallb] in Hl. apply andb_prop in Hl as [He Hl].
  cbn [List.filter]. rewrite (Hrq e He). apply IH, Hl.
Qed.

Lemma write_calls_app (l1 l2 : list event) :
  write_calls (l1 ++ l2) = (write_calls l1 ++ write_calls l2)%list.
Proof.
  induction l1 as [| e l1 IH]; [reflexivity |].
  destruct e; cbn [app write_calls]; rewrite IH; reflexivity.
Qed.

Lemma read_data_app (l1 l2 : list event) :
  read_data (l1 ++ l2) = (read_data l1 ++ read_data l2)%list.
Proof.
  induction l1 as [| e l1 IH]; [reflexivity |].
  destruct e; cbn [app read_data]; rewrite IH, ?app_assoc; reflexivity.
Qed.

Lemma no_writes_calls (l : list event) :
  forallb (fun e => negb (is_write e)) l = true -> write_calls l = [].
Proof.
  induction l as [| e l IH]; [reflexivity |].
  cbn [forallb]. intros H. apply andb_prop in H as [He Hl].
  destruct e; try discriminate He; cbn [write_calls]; exact (IH Hl).
Qed.

(** The two shapes of a run of [wav_player_play_file] with a sink: it
    stops before the loop with [ESP_FAIL], the state untouched and no sink
    call; or it runs the loop between a fixed prefix and suffix. *)
Lemma play_file_cases (E : env) (filepath : string) (cb : wav_player_write_cb_t)
    (st : state U) :
  (exists t,
      wav_player_play_file E filepath (Some cb) st = (Some ESP_FAIL, st, t)
      /\ forallb (fun e => negb (is_write e)) t = true
      /\ count_events is_fclose t = count_events is_fopen_ok t
      /\ count_events is_free_block t = count_events is_malloc_ok t
      /\ (count_events is_fopen_ok t <= 1)%nat)
  \/ (exists data,
        fs E filepath = Some data /\ (44 <= length data)%nat
        /\ valid (header_at (take 44 data)) st = true
        /\ wav_player_play_file E filepath (Some cb) st =
           let '(res, st', evs) :=
             play_loop (S (length data - 44)) cb
               (bits_per_sample (header_at (take 44 data)))
               (advance {| f_data := data; f_pos := 0 |} 44)
               (map (heap_garbage E 0) (seq 0 BUFFER_SIZE))
               (map (heap_garbage E 1) (seq 0 BUFFER_SIZE)) ESP_OK st in
           (res, st', (stream_prefix filepath data ++ evs ++ stream_suffix)%list)).
Proof.
  rewrite play_file_run.
  destruct (fs E filepath) as [data |].
  2:{ left. eexists. split; [reflexivity |]. repeat split. cbn. lia. }
  cbv zeta.
  destruct (Nat.leb_spec 44 (length data)) as [H44 | H44].
  2:{ left. eexists. split; [reflexivity |]. repeat split. cbn. lia. }
  destruct (is_valid_wav_header_run (header_at (take 44 data)) st) as (_ & Hlogs & _).
  destruct (valid (header_at (take 44 data)) st) eqn:Hv.
  2:{ left. eexists. split; [reflexivity |].
      assert (Hc : forall q, (forall e, is_log e = true -> q e = false) ->
                  count_events q (calls (is_valid_wav_header (header_at (take 44 data))) st)
                  = 0%nat)
        by (intros q Hq; apply (count_events_none q is_log); assumption).
      split; [| split; [| split]].
      - rewrite !forallb_app. cbn [forallb negb is_write andb].
        rewrite logs_are_not_writes by exact Hlogs. reflexivity.
      - rewrite !count_events_app, !Hc by (intros [] He; try discriminate He; reflexivity).
        reflexivity.
      - rewrite !count_events_app, !Hc by (intros [] He; try discriminate He; reflexivity).
        reflexivity.
      - rewrite !count_events_app, !Hc by (intros [] He; try discriminate He; reflexivity).
        cbn. lia. }
  destruct (malloc_ok E 0) eqn:Hm0, (malloc_ok E 1) eqn:Hm1; cbn [andb];
    try (left; eexists; split; [reflexivity |]; repeat split; cbn; lia).
  right. exists data. repeat split; try assumption.
Qed.

Lemma play_loop_events (fuel : nat) (cb : wav_player_write_cb_t) (bits : Z) :
  forall (fp : FILE) (buf pbuf : list byte) (r0 : Z) (st : state U),
    forallb is_stream_event (calls (play_loop fuel cb bits fp buf pbuf r0) st) = true.
Proof.
  induction fuel as [| fuel IH]; intros fp buf pbuf r0 st; [reflexivity |].
  unfold calls in *. rewrite play_loop_step. cbv zeta.
  destruct (0 <? _)%nat; [| reflexivity].
  destruct (_ =? ESP_OK); [| reflexivity].
  match goal with
  | |- context [play_loop fuel cb bits ?f ?b ?p ?r ?s] =>
      specialize (IH f b p r s); destruct (play_loop fuel cb bits f b p r s) as [[res st2] evs]
  end.
  cbn [snd forallb is_stream_event andb] in *. exact IH.
Qed.

Lemma length_process_chunk (bits volume : Z) (buffer : list byte) (n : nat)
    (p : list byte) :
  (n <= length p)%nat -> length (process_chunk bits volume buffer n p) = length p.
Proof.
  intros Hn. unfold process_chunk.
  destruct (bits =? 16).
  - rewrite process_16_bytes, length_app, length_samples, length_drop by exact Hn.
    pose proof (Nat.Div0.mul_div_le n 2). lia.
  - destruct (bits =? 24); [rewrite process_24_unchanged |]; reflexivity.
Qed.

Lemma play_loop_chunks (fuel : nat) (cb : wav_player_write_cb_t) (bits : Z) :
  forall (fp : FILE) (buf pbuf : list byte) (r0 : Z) (st : state U),
    length pbuf = BUFFER_SIZE ->
    Forall (fun c => (1 <= snd c <= BUFFER_SIZE)%nat /\ length (fst c) = snd c)
      (write_calls (calls (play_loop fuel cb bits fp buf pbuf r0) st)).
Proof.
  induction fuel as [| fuel IH]; intros fp buf pbuf r0 st Hp; [constructor |].
  unfold calls in *. rewrite play_loop_step. cbv zeta.
  set (chunk := take BUFFER_SIZE (remaining fp)).
  set (n := length chunk).
  assert (Hn : (n <= BUFFER_SIZE)%nat) by (subst n chunk; rewrite length_take; lia).
  set (buffer := (chunk ++ drop n buf)%list).
  set (p := process_chunk bits (current_volume st) buffer n pbuf).
  assert (Hlp : length p = BUFFER_SIZE)
    by (subst p; rewrite length_process_chunk; lia).
  assert (Hsrc : length (take n p) = n) by (rewrite length_take; lia).
  destruct (Nat.ltb_spec 0 n) as [Hpos | Hzero]; [| constructor].
  destruct (_ =? ESP_OK).
  - specialize (IH (advance fp n) buffer p (fst (cb (take n p) n st))
                  (snd (cb (take n p) n st)) Hlp).
    destruct (play_loop fuel cb bits _ _ _ _ _) as [[res st2] evs].
    cbn [snd write_calls] in *.
    constructor; [cbn [fst snd]; lia | exact IH].
  - cbn [snd write_calls]. constructor; [cbn [fst snd]; lia | constructor].
Qed.

Lemma remaining_advance (fp : FILE) (n : nat) :
  remaining (advance fp n) = drop n (remaining fp).
Proof. unfold remaining, advance. cbn [f_data f_pos]. rewrite drop_drop. reflexivity. Qed.

Lemma take_chunk_rest (k : nat) (l : list byte) :
  (take k l ++ drop (length (take k l)) l)%list = l.
Proof.
  rewrite length_take.
  destruct (Nat.le_gt_cases k (length l)) as [Hle | Hgt].
  - rewrite Nat.min_l by exact Hle. apply take_drop.
  - rewrite Nat.min_r by lia. rewrite take_ge, drop_all by lia. apply app_nil_r.
Qed.

Lemma play_loop_complete (fuel : nat) (cb : wav_player_write_cb_t) (bits : Z) :
  forall (fp : FILE) (buf pbuf : list byte) (r0 : Z) (st : state U),
    eval (play_loop fuel cb bits fp buf pbuf r0) st = Some ESP_OK ->
    read_data (calls (play_loop fuel cb bits fp buf pbuf r0) st) = remaining fp
    /\ list_sum (write_sizes (calls (play_loop fuel cb bits fp buf pbuf r0) st))
       = length (remaining fp)
    /\ Forall (fun x => x = ESP_OK)
         (write_results (calls (play_loop fuel cb bits fp buf pbuf r0) st)).
Proof.
  induction fuel as [| fuel IH]; intros fp buf pbuf r0 st Hres; [discriminate Hres |].
  unfold calls, eval in *. rewrite play_loop_step in *. cbv zeta in *.
  set (chunk := take BUFFER_SIZE (remaining fp)) in *.
  set (n := length chunk) in *.
  set (buffer := (chunk ++ drop n buf)%list) in *.
  set (p := process_chunk bits (current_volume st) buffer n pbuf) in *.
  pose proof (take_chunk_rest BUFFER_SIZE (remaining fp)) as Hsplit.
  fold chunk in Hsplit. fold n in Hsplit.
  destruct (Nat.ltb_spec 0 n) as [Hpos | Hzero].
  - destruct (Z.eqb_spec (fst (cb (take n p) n st)) ESP_OK) as [Hok | Hfail].
    + specialize (IH (advance fp n) buffer p (fst (cb (take n p) n st))
                    (snd (cb (take n p) n st))).
      destruct (play_loop fuel cb bits _ _ _ _ _) as [[res st2] evs].
      cbn [fst snd] in *.
      destruct (IH Hres) as (Hrd & Hsum & Hall).
      rewrite remaining_advance in Hrd, Hsum.
      cbn [read_data write_sizes write_results].
      split; [rewrite Hrd; exact Hsplit |].
      split; [| constructor; [exact Hok | exact Hall]].
      change (list_sum (n :: write_sizes evs)) with (n + list_sum (write_sizes evs))%nat.
      rewrite Hsum, length_drop.
      assert (n <= length (remaining fp))%nat
        by (subst n chunk; rewrite length_take; lia).
      lia.
    + cbn [fst snd] in Hres. congruence.
  - cbn [fst snd read_data write_sizes write_results].
    change (list_sum []) with 0%nat.
    assert (Hrem : remaining fp = []).
    { apply nil_length_inv. subst n chunk. rewrite length_take in Hzero.
      unfold BUFFER_SIZE in Hzero. lia. }
    clear Hsplit. subst n chunk. rewrite Hrem, take_nil.
    repeat split. constructor.
Qed.

Lemma play_loop_24 (fuel : nat) (cb : wav_player_write_cb_t) :
  forall (fp : FILE) (buf pbuf : list byte) (r0 : Z) (st : state U),
    Forall (fun c => fst c = take (snd c) pbuf)
      (write_calls (calls (play_loop fuel cb 24 fp buf pbuf r0) st)).
Proof.
  induction fuel as [| fuel IH]; intros fp buf pbuf r0 st; [constructor |].
  unfold calls in *. rewrite play_loop_step. cbv zeta.
  cbn [process_chunk Z.eqb Pos.eqb]. rewrite process_24_unchanged.
  destruct (0 <? _)%nat; [| constructor].
  destruct (_ =? ESP_OK).
  - match goal with
    | |- context [play_loop fuel cb 24 ?f ?b pbuf ?r ?s] =>
        specialize (IH f b pbuf r s);
        destruct (play_loop fuel cb 24 f b pbuf r s) as [[res st2] evs]
    end.
    cbn [snd write_calls] in *. constructor; [reflexivity | exact IH].
  - cbn [snd write_calls]. constructor; [reflexivity | constructor].
Qed.

Lemma play_loop_volume (fuel : nat) (cb : wav_player_write_cb_t) (bits : Z) :
  keeps_volume cb ->
  forall (fp : FILE) (buf pbuf : list byte) (r0 : Z) (st : state U),
    current_volume (exec (play_loop fuel cb bits fp buf pbuf r0) st) = current_volume st.
Proof.
  intros Hcb.
  induction fuel as [| fuel IH]; intros fp buf pbuf r0 st; [reflexivity |].
  unfold exec in *. rewrite play_loop_step. cbv zeta.
  destruct (0 <? _)%nat; [| reflexivity].
  destruct (_ =? ESP_OK).
  - match goal with
    | |- context [play_loop fuel cb bits ?f ?b ?p ?r ?s] =>
        specialize (IH f b p r s);
        destruct (play_loop fuel cb bits f b p r s) as [[res st2] evs]
    end.
    cbn [fst snd] in *. rewrite IH. apply Hcb.
  - cbn [fst snd]. apply Hcb.
Qed.

Lemma stream_event_counts (q : event -> bool) (fuel : nat)
    (cb : wav_player_write_cb_t) (bits : Z) (fp : FILE) (buf pbuf : list byte)
    (r0 : Z) (st : state U) :
  (forall e, is_stream_event e = true -> q e = false) ->
  count_events q (calls (play_loop fuel cb bits fp buf pbuf r0) st) = 0%nat.
Proof.
  intros Hq. apply (count_events_none q is_stream_event); [| exact Hq].
  apply play_loop_events.
Qed.

(** X10.  Every file a run opens it closes, and every block it obtains
    it frees: in a run of [wav_player_play_file], with or without a sink,
    and in a run of [wav_player_get_info], on every path, [fclose] is
    called as often as [fopen] succeeded (at most once) and [free] is
    called on a block as often as [malloc] returned one;
    [wav_player_get_info] allocates nothing. *)
Theorem resources_are_released (E : env) (filepath : string)
    (cb : option wav_player_write_cb_t) (header : wav_header_t) (st : state U) :
  let t := calls (wav_player_play_file E filepath cb) st in
  let t' := calls (wav_player_get_info E filepath header) st in
  count_events is_fclose t = count_events is_fopen_ok t
  /\ count_events is_free_block t = count_events is_malloc_ok t
  /\ (count_events is_fopen_ok t <= 1)%nat
  /\ count_events is_fclose t' = count_events is_fopen_ok t'
  /\ count_events is_malloc_ok t' = 0%nat
  /\ count_events is_free_block t' = 0%nat.
Proof.
  intros t t'. subst t t'.
  assert (Hinfo :
    count_events is_fclose (calls (wav_player_get_info E filepath header) st)
      = count_events is_fopen_ok (calls (wav_player_get_info E filepath header) st)
    /\ count_events is_malloc_ok (calls (wav_player_get_info E filepath header) st) = 0%nat
    /\ count_events is_free_block (calls (wav_player_get_info E filepath header) st) = 0%nat).
  { unfold calls. rewrite get_info_run.
    destruct (fs E filepath) as [data |]; [| repeat split].
    destruct (44 <=? length data)%nat; repeat split. }
  destruct cb as [cb |].
  2:{ split; [reflexivity |]. split; [reflexivity |]. split; [cbn; lia | exact Hinfo]. }
  destruct (play_file_cases E filepath cb st)
    as [(t & Hrun & _ & Hclose & Hfree & Hopen) | (data & _ & _ & _ & Hrun)].
  - unfold calls at 1 2 3 4 5. rewrite Hrun. cbn [snd].
    split; [exact Hclose |]. split; [exact Hfree |]. split; [exact Hopen | exact Hinfo].
  - unfold calls at 1 2 3 4 5. rewrite Hrun.
    pose proof (fun q H => stream_event_counts q (S (length data - 44)) cb
                  (bits_per_sample (header_at (take 44 data)))
                  (advance {| f_data := data; f_pos := 0 |} 44)
                  (map (heap_garbage E 0) (seq 0 BUFFER_SIZE))
                  (map (heap_garbage E 1) (seq 0 BUFFER_SIZE)) ESP_OK st H) as Hloop.
    unfold calls in Hloop.
    destruct (play_loop _ _ _ _ _ _ _ _) as [[res st2] evs].
    cbn [snd] in *.
    rewrite !count_events_app,
      !Hloop by (intros [] He; try discriminate He; reflexivity).
    split; [reflexivity |]. split; [reflexivity |]. split; [cbn; lia | exact Hinfo].
Qed.

(** X11.  Every chunk handed to the sink holds at least one byte and at
    most [BUFFER_SIZE] (1024) bytes, and the size passed is the number of
    bytes handed over: the sink is never called with an empty chunk. *)
Theorem sink_chunks_are_bounded (E : env) (filepath : string)
    (cb : option wav_player_write_cb_t) (st : state U) :
  Forall (fun c => (1 <= snd c <= BUFFER_SIZE)%nat /\ length (fst c) = snd c)
    (write_calls (calls (wav_player_play_file E filepath cb) st)).
Proof.
  destruct cb as [cb |]; [| constructor].
  destruct (play_file_cases E filepath cb st)
    as [(t & Hrun & Hnw & _) | (data & _ & _ & _ & Hrun)];
    unfold calls; rewrite Hrun.
  - cbn [snd]. rewrite no_writes_calls by exact Hnw. constructor.
  - pose proof (play_loop_chunks (S (length data - 44)) cb
                  (bits_per_sample (header_at (take 44 data)))
                  (advance {| f_data := data; f_pos := 0 |} 44)
                  (map (heap_garbage E 0) (seq 0 BUFFER_SIZE))
                  (map (heap_garbage E 1) (seq 0 BUFFER_SIZE)) ESP_OK st) as Hloop.
    unfold calls in Hloop.
    destruct (play_loop _ _ _ _ _ _ _ _) as [[res st2] evs].
    cbn [snd] in *.
    rewrite !write_calls_app. cbn [write_calls stream_prefix stream_suffix app].
    rewrite app_nil_r. apply Hloop. rewrite length_map, length_seq. reflexivity.
Qed.

(** X12.  A run that returns [ESP_OK] has read its file to the end and
    handed all of it past the header to the sink: the reads, put end to
    end, are the file; the sizes of the chunks handed over add up to the
    length of the file less the 44 header bytes (whatever [data_size]
    the header declares); and every sink call returned [ESP_OK]. *)
Theorem successful_playback_delivers_whole_payload (E : env) (filepath : string)
    (cb : wav_player_write_cb_t) (st : state U) :
  eval (wav_player_play_file E filepath (Some cb)) st = Some ESP_OK ->
  exists data : list byte,
    fs E filepath = Some data
    /\ read_data (calls (wav_player_play_file E filepath (Some cb)) st) = data
    /\ (list_sum (write_sizes (calls (wav_player_play_file E filepath (Some cb)) st)) + 44
        = length data)%nat
    /\ Forall (fun x => x = ESP_OK)
         (write_results (calls (wav_player_play_file E filepath (Some cb)) st)).
Proof.
  intros Hres.
  destruct (play_file_cases E filepath cb st)
    as [(t & Hrun & _) | (data & Hfs & H44 & _ & Hrun)];
    unfold calls, eval in *; rewrite Hrun in *.
  - cbn [fst] in Hres. discriminate Hres.
  - pose proof (play_loop_complete (S (length data - 44)) cb
                  (bits_per_sample (header_at (take 44 data)))
                  (advance {| f_data := data; f_pos := 0 |} 44)
                  (map (heap_garbage E 0) (seq 0 BUFFER_SIZE))
                  (map (heap_garbage E 1) (seq 0 BUFFER_SIZE)) ESP_OK st) as Hloop.
    unfold calls, eval in Hloop.
    destruct (play_loop _ _ _ _ _ _ _ _) as [[res st2] evs].
    cbn [fst snd] in *.
    destruct (Hloop Hres) as (Hrd & Hsum & Hall).
    rewrite remaining_advance in Hrd, Hsum.
    change (remaining {| f_data := data; f_pos := 0 |}) with data in Hrd, Hsum.
    exists data. split; [exact Hfs |].
    rewrite !read_data_app, !write_sizes_app, !write_results_app.
    cbn [read_data write_sizes write_results stream_prefix stream_suffix app].
    rewrite !app_nil_r, Hrd, Hsum, length_drop.
    split; [apply take_drop |]. split; [lia | exact Hall].
Qed.

(** X13.  For a file whose header says 24 bits per sample, every chunk
    handed to the sink is a prefix of [processed_buffer] as [malloc]
    returned it: what the sink receives depends on neither the samples in
    the file nor the volume. *)
Theorem play_24bit_output_ignores_input (E : env) (filepath : string)
    (cb : wav_player_write_cb_t) (st : state U) (data : list byte) :
  fs E filepath = Some data ->
  bits_per_sample (header_at (take 44 data)) = 24 ->
  Forall (fun c => fst c = take (snd c) (map (heap_garbage E 1) (seq 0 BUFFER_SIZE)))
    (write_calls (calls (wav_player_play_file E filepath (Some cb)) st)).
Proof.
  intros Hfs Hbits.
  destruct (play_file_cases E filepath cb st)
    as [(t & Hrun & Hnw & _) | (data' & Hfs' & _ & _ & Hrun)];
    unfold calls; rewrite Hrun.
  - cbn [snd]. rewrite no_writes_calls by exact Hnw. constructor.
  - assert (data' = data) by congruence. subst data'. clear Hrun. rewrite Hbits.
    pose proof (play_loop_24 (S (length data - 44)) cb
                  (advance {| f_data := data; f_pos := 0 |} 44)
                  (map (heap_garbage E 0) (seq 0 BUFFER_SIZE))
                  (map (heap_garbage E 1) (seq 0 BUFFER_SIZE)) ESP_OK st) as Hloop.
    unfold calls in Hloop.
    destruct (play_loop _ _ _ _ _ _ _ _) as [[res st2] evs].
    cbn [snd] in *.
    rewrite !write_calls_app. cbn [write_calls stream_prefix stream_suffix app].
    rewrite app_nil_r. exact Hloop.
Qed.

(** X14.  [wav_player_play_file] does not change the volume itself: if
    the sink leaves [current_volume] alone, the level after the run is
    the level before it, whatever the outcome of the run. *)
Theorem play_file_keeps_volume (E : env) (filepath : string)
    (cb : wav_player_write_cb_t) (st : state U) :
  keeps_volume cb ->
  current_volume (exec (wav_player_play_file E filepath (Some cb)) st)
  = current_volume st.
Proof.
  intros Hcb.
  destruct (play_file_cases E filepath cb st)
    as [(t & Hrun & _) | (data & _ & _ & _ & Hrun)];
    unfold exec; rewrite Hrun; [reflexivity |].
  pose proof (play_loop_volume (S (length data - 44)) cb
                (bits_per_sample (header_at (take 44 data))) Hcb
                (advance {| f_data := data; f_pos := 0 |} 44)
                (map (heap_garbage E 0) (seq 0 BUFFER_SIZE))
                (map (heap_garbage E 1) (seq 0 BUFFER_SIZE)) ESP_OK st) as Hloop.
  unfold exec in Hloop.
  destruct (play_loop _ _ _ _ _ _ _ _) as [[res st2] evs].
  exact Hloop.
Qed.

(** X15.  [wav_player_get_info] applies the first two checks of
    [wav_player_play_file] and not the third: it fails, leaving the
    caller's header as it was, exactly when playing the file would stop
    on the open or on the short header; it returns [ESP_OK] with a header
    that breaks the format rules exactly when playing would stop on the
    unsupported format; otherwise it returns [ESP_OK] with a header that
    satisfies the rules. *)
Theorem get_info_matches_play_file_checks (E : env) (filepath : string)
    (cb : wav_player_write_cb_t) (header : wav_header_t) (st : state U) :
  let r := eval (wav_player_get_info E filepath header) st in
  match setup_failure E filepath (Some cb) st with
  | Some OpenError | Some FormatError => fst r = ESP_FAIL /\ snd r = header
  | Some UnsupportedFormatError => fst r = ESP_OK /\ ~ header_rules (snd r)
  | _ => fst r = ESP_OK /\ header_rules (snd r)
  end.
Proof.
  intros r. subst r. unfold eval, setup_failure. rewrite get_info_run.
  destruct (fs E filepath) as [data |]; [| split; reflexivity].
  destruct (44 <=? length data)%nat; cbn [negb]; [| split; reflexivity].
  pose proof (valid_rules (header_at (take 44 data)) st) as Hrules.
  destruct (valid (header_at (take 44 data)) st); cbn [negb fst snd].
  - assert (header_rules (header_at (take 44 data))) by (apply Hrules; reflexivity).
    destruct (malloc_ok E 0 && malloc_ok E 1); cbn [negb]; split; auto.
  - split; [reflexivity |]. intros Habs. apply Hrules in Habs. discriminate Habs.
Qed.

End MoreRuns.

Lemma successful_playback_delivers_whole_payload_witness :
  exists data : list byte,
    fs (one_file "a.wav" (wav16_header ++ [x10; x20; x30])) "a.wav" = Some data
    /\ read_data (calls (wav_player_play_file
                           (one_file "a.wav" (wav16_header ++ [x10; x20; x30])) "a.wav"
                           (Some counting_sink))
                    {| current_volume := 30; user_data := 0%nat |}) = data
    /\ (list_sum (write_sizes (calls (wav_player_play_file
                                        (one_file "a.wav" (wav16_header ++ [x10; x20; x30]))
                                        "a.wav" (Some counting_sink))
                                 {| current_volume := 30; user_data := 0%nat |})) + 44
        = length data)%nat
    /\ Forall (fun x => x = ESP_OK)
         (write_results (calls (wav_player_play_file
                                  (one_file "a.wav" (wav16_header ++ [x10; x20; x30]))
                                  "a.wav" (Some counting_sink))
                           {| current_volume := 30; user_data := 0%nat |})).
Proof.
  apply (successful_playback_delivers_whole_payload
           (one_file "a.wav" (wav16_header ++ [x10; x20; x30])) "a.wav"
           counting_sink {| current_volume := 30; user_data := 0%nat |}).
  vm_compute. reflexivity.
Defined.

Lemma play_24bit_output_ignores_input_witness :
  Forall (fun c => fst c = take (snd c)
                            (map (heap_garbage (one_file "a.wav"
                                                  (wav24_header ++ [x01; x00; x80])) 1)
                                 (seq 0 BUFFER_SIZE)))
    (write_calls (calls (wav_player_play_file
                           (one_file "a.wav" (wav24_header ++ [x01; x00; x80])) "a.wav"
                           (Some counting_sink))
                    {| current_volume := 100; user_data := 0%nat |})).
Proof.
  apply (play_24bit_output_ignores_input
           (one_file "a.wav" (wav24_header ++ [x01; x00; x80])) "a.wav"
           counting_sink {| current_volume := 100; user_data := 0%nat |}
           (wav24_header ++ [x01; x00; x80])).
  - vm_compute. reflexivity.
  - vm_compute. reflexivity.
Defined.

Lemma play_file_keeps_volume_witness :
  current_volume (exec (wav_player_play_file
                          (one_file "a.wav" (wav16_header ++ [x10; x20; x30])) "a.wav"
                          (Some counting_sink))
                    {| current_volume := 30; user_data := 0%nat |})
  = current_volume {| current_volume := 30; user_data := 0%nat |}.
Proof.
  apply (play_file_keeps_volume
           (one_file "a.wav" (wav16_header ++ [x10; x20; x30])) "a.wav"
           counting_sink {| current_volume := 30; user_data := 0%nat |}).
  intros src size st. reflexivity.
Defined.

(** ** Volume state, continued *)

Section MoreVolume.

Context {U : Type}.

(** X16.  Raising the volume and lowering it by the same amount restores
    the level, provided the raised level needed no clamping. *)
Theorem increase_then_decrease_restores (amount : Z) (st : state U) :
  0 <= current_volume st <= 100 ->
  0 <= current_volume st + amount <= 100 ->
  current_volume
    (exec (bind (wav_player_increase_volume amount)
                (fun _ => wav_player_decrease_volume amount)) st)
  = current_volume st.
Proof.
  intros Hcur Hsum.
  rewrite exec_bind.
  assert (Hup : current_volume (exec (wav_player_increase_volume amount) st)
                = current_volume st + amount).
  { rewrite increase_volume_clamps by (unfold INT_MIN, INT_MAX; lia).
    unfold clamp, MIN_VOLUME, MAX_VOLUME. lia. }
  rewrite decrease_volume_clamps by (rewrite Hup; unfold INT_MIN, INT_MAX; lia).
  rewrite Hup. unfold clamp, MIN_VOLUME, MAX_VOLUME. lia.
Qed.

(** X17.  With the level in range and an amount from 0 to
    [INT_MAX - 100], raising the volume never lowers the level and stops
    at 100, and lowering it never raises the level and stops at 0. *)
Theorem volume_steps_saturate (amount : Z) (st : state U) :
  0 <= current_volume st <= 100 ->
  0 <= amount <= INT_MAX - 100 ->
  current_volume (exec (wav_player_increase_volume amount) st)
    = Z.min 100 (current_volume st + amount)
  /\ current_volume st
     <= current_volume (exec (wav_player_increase_volume amount) st) <= 100
  /\ current_volume (exec (wav_player_decrease_volume amount) st)
    = Z.max 0 (current_volume st - amount)
  /\ 0 <= current_volume (exec (wav_player_decrease_volume amount) st)
     <= current_volume st.
Proof.
  unfold INT_MAX. intros Hcur Ha.
  rewrite increase_volume_clamps, decrease_volume_clamps
    by (unfold INT_MIN, INT_MAX; lia).
  unfold clamp, MIN_VOLUME, MAX_VOLUME. lia.
Qed.

End MoreVolume.

Lemma increase_then_decrease_restores_witness :
  current_volume
    (exec (bind (wav_player_increase_volume 25)
                (fun _ => wav_player_decrease_volume 25)) (initial_state tt))
  = current_volume (initial_state tt).
Proof.
  apply (increase_then_decrease_restores 25 (initial_state tt)).
  - simpl. lia.
  - simpl. lia.
Defined.

Lemma volume_steps_saturate_witness :
  current_volume (exec (wav_player_increase_volume 80) (initial_state tt))
    = Z.min 100 (current_volume (initial_state tt) + 80)
  /\ current_volume (initial_state tt)
     <= current_volume (exec (wav_player_increase_volume 80) (initial_state tt)) <= 100
  /\ current_volume (exec (wav_player_decrease_volume 80) (initial_state tt))
    = Z.max 0 (current_volume (initial_state tt) - 80)
  /\ 0 <= current_volume (exec (wav_player_decrease_volume 80) (initial_state tt))
     <= current_volume (initial_state tt).
Proof.
  apply (volume_steps_saturate 80 (initial_state tt)).
  - simpl. lia.
  - unfold INT_MAX. lia.
Defined.

(** ** 16-bit playback end to end *)

Section Playback16.

Context {U : Type}.







End Playback16.


(** ** Failure codes *)

Section FailureCodes.

Context {U : Type}.

Lemma setup_failure_code (E : env) (filepath : string)
    (cb : option wav_player_write_cb_t) (st : state U) (k : failure_kind) :
  setup_failure E filepath cb st = Some k ->
  forall c : Z, error_code k c <> ESP_OK.
Proof.
  unfold setup_failure. intros Hk c.
  destruct cb as [cb |]; [| injection Hk as <-; discriminate].
  destruct (fs E filepath) as [data |]; [| injection Hk as <-; discriminate].
  destruct (negb (44 <=? length data)%nat); [injection Hk as <-; discriminate |].
  destruct (negb (valid (header_at (take 44 data)) st));
    [injection Hk as <-; discriminate |].
  destruct (negb (malloc_ok E 0 && malloc_ok E 1));
    [injection Hk as <-; discriminate | discriminate Hk].
Qed.

Lemma play_file_ok_writes (E : env) (filepath : string)
    (cb : wav_player_write_cb_t) (st : state U) :
  eval (wav_player_play_file E filepath (Some cb)) st = Some ESP_OK ->
  Forall (fun x => x = ESP_OK)
    (write_results (calls (wav_player_play_file E filepath (Some cb)) st)).
Proof.
  intros Hres.
  destruct (play_file_cases E filepath cb st)
    as [(t & Hrun & _) | (data & _ & _ & _ & Hrun)];
    unfold calls, eval in *; rewrite Hrun in *.
  - cbn [fst] in Hres. discriminate Hres.
  - pose proof (play_loop_complete (S (length data - 44)) cb
                  (bits_per_sample (header_at (take 44 data)))
                  (advance {| f_data := data; f_pos := 0 |} 44)
                  (map (heap_garbage E 0) (seq 0 BUFFER_SIZE))
                  (map (heap_garbage E 1) (seq 0 BUFFER_SIZE)) ESP_OK st) as Hloop.
    unfold calls, eval in Hloop.
    destruct (play_loop _ _ _ _ _ _ _ _) as [[res st2] evs].
    cbn [fst snd] in *.
    destruct (Hloop Hres) as (_ & _ & Hall).
    rewrite !write_results_app.
    cbn [write_results stream_prefix stream_suffix app].
    rewrite app_nil_r. exact Hall.
Qed.

(** C8, as amended.  Every failure ends the invocation, which opens the
    source at most once and re-attempts nothing, and every failure comes
    back as a value other than [ESP_OK]; the value does not name the
    cause.  A missing sink yields [ESP_ERR_INVALID_ARG]; a source that
    cannot be opened, a header shorter than 44 bytes, an unsupported
    format and a failed allocation all yield the one code [ESP_FAIL], and
    none of them reaches the sink; any other run returns [ESP_OK], every
    sink call having returned [ESP_OK], or else the non-zero code of a
    sink call it made.  That code is the sink's own, whatever it is: a
    sink that fails with [ESP_FAIL] or with [ESP_ERR_INVALID_ARG] makes
    the run return that very value, so a sink failure is not told apart
    from the other causes.  [wav_player_get_info] yields [ESP_FAIL] both
    when the source cannot be opened and when the header is short, and
    [ESP_OK] otherwise.  [ESP_ERR_INVALID_ARG], [ESP_FAIL] and [ESP_OK]
    are pairwise distinct, which separates the missing sink from the
    four causes that yield [ESP_FAIL], and every failure from success. *)
Theorem failures_are_terminal_and_coded (E : env) (filepath : string)
    (cb : option wav_player_write_cb_t) (header : wav_header_t) (st : state U) :
  match setup_failure E filepath cb st with
  | Some k =>
      forall c : Z,
        eval (wav_player_play_file E filepath cb) st = Some (error_code k c)
        /\ error_code k c <> ESP_OK
        /\ write_sizes (calls (wav_player_play_file E filepath cb) st) = []
  | None =>
      exists res : Z,
        eval (wav_player_play_file E filepath cb) st = Some res
        /\ ((res = ESP_OK
             /\ Forall (fun x => x = ESP_OK)
                  (write_results (calls (wav_player_play_file E filepath cb) st)))
            \/ (res <> ESP_OK
                /\ exists pre src size post,
                     calls (wav_player_play_file E filepath cb) st
                     = (pre ++ EvWrite src size res :: post)%list))
  end
  /\ (fopen_count (calls (wav_player_play_file E filepath cb) st) <= 1)%nat
  /\ fst (eval (wav_player_get_info E filepath header) st)
     = match fs E filepath with
       | None => ESP_FAIL
       | Some data => if (44 <=? length data)%nat then ESP_OK else ESP_FAIL
       end
  /\ (fopen_count (calls (wav_player_get_info E filepath header) st) <= 1)%nat
  /\ (forall c : Z,
        error_code ArgumentError c = ESP_ERR_INVALID_ARG
        /\ error_code OpenError c = ESP_FAIL
        /\ error_code FormatError c = ESP_FAIL
        /\ error_code UnsupportedFormatError c = ESP_FAIL
        /\ error_code AllocationError c = ESP_FAIL
        /\ error_code SinkError c = c)
  /\ ESP_ERR_INVALID_ARG <> ESP_FAIL /\ ESP_ERR_INVALID_ARG <> ESP_OK
  /\ ESP_FAIL <> ESP_OK
  /\ (forall c : Z,
        setup_failure (one_file "a.wav" (wav16_header ++ [x10; x20])) "a.wav"
          (Some (failing_sink c)) {| current_volume := 30; user_data := 0%nat |} = None
        /\ eval (wav_player_play_file (one_file "a.wav" (wav16_header ++ [x10; x20]))
                   "a.wav" (Some (failing_sink c)))
                {| current_volume := 30; user_data := 0%nat |}
           = Some (error_code SinkError c)).
Proof.
  destruct (play_file_outcome E filepath cb st) as [Hout Hopen].
  split.
  { pose proof (setup_failure_code E filepath cb st) as Hcode.
    destruct (setup_failure E filepath cb st) as [k |] eqn:Hs.
    - intros c. destruct (Hout c) as [Hres Hnw].
      split; [exact Hres |]. split; [apply (Hcode k eq_refl) | exact Hnw].
    - destruct Hout as (res & Hres & Hcase).
      exists res. split; [exact Hres |].
      destruct Hcase as [Hok | Hfail]; [left | right; exact Hfail].
      split; [exact Hok |].
      destruct cb as [cb |]; [| discriminate Hs].
      apply play_file_ok_writes. rewrite Hres, Hok. reflexivity. }
  split; [exact Hopen |].
  unfold eval at 1. unfold calls at 1. rewrite get_info_run.
  split; [| split].
  - destruct (fs E filepath) as [data |]; [| reflexivity].
    destruct (44 <=? length data)%nat; reflexivity.
  - destruct (fs E filepath) as [data |]; [| cbn; lia].
    destruct (44 <=? length data)%nat; cbn; lia.
  - split; [intros c; repeat split |].
    split; [discriminate |]. split; [discriminate |]. split; [discriminate |].
    intros c. split; [vm_compute; reflexivity |].
    destruct c; vm_compute; reflexivity.
Qed.

End FailureCodes.
